(** * flask_restful_routing: route trees, their registration and the
      loader-wrapping of resource classes

    A shallow embedding of [flask_restful_routing.py].

    - Python [str] values are Rocq strings; [lower] acts on the letters
      [A]-[Z] (no other character lowercases to [s] or [y], which is all
      the module asks of [lower]).
    - Python values are a tagged union with one constructor per exact
      runtime type, as [wrapped_cls] branches on [type(x) == T].
    - [Route] objects live in a store indexed by references; the weak
      [_parent] proxies are references that may be dead.
    - a [flask_restful.Api] is the list of its [add_resource] calls.
    - registrations record the class handed over by its description; a
      second run of the same code keeps the class objects that
      [wrapped_cls] makes apart by their address.
    - diagnostic output ([print], [log.debug]) is not modelled. *)

From Stdlib Require Import Ascii.
From stdpp Require Import base option list gmap strings.

Set Warnings "-register-all".

(** ** Strings *)

Module Str.

Definition is_upper (c : ascii) : bool :=
  let n := nat_of_ascii c in (65 <=? n)%nat && (n <=? 90)%nat.

Definition is_lower (c : ascii) : bool :=
  let n := nat_of_ascii c in (97 <=? n)%nat && (n <=? 122)%nat.

Definition is_digit (c : ascii) : bool :=
  let n := nat_of_ascii c in (48 <=? n)%nat && (n <=? 57)%nat.

Definition lower_char (c : ascii) : ascii :=
  if is_upper c then ascii_of_nat (nat_of_ascii c + 32) else c.

(** [s.lower()] *)
Fixpoint lower (s : string) : string :=
  match s with
  | EmptyString => EmptyString
  | String c s' => String (lower_char c) (lower s')
  end.

(** [s.endswith(suffix)] *)
Fixpoint endswith (s suffix : string) : bool :=
  String.eqb s suffix
  || match s with
     | EmptyString => false
     | String _ s' => endswith s' suffix
     end.

(** [s[:-1]] *)
Fixpoint drop_last (s : string) : string :=
  match s with
  | EmptyString => EmptyString
  | String _ EmptyString => EmptyString
  | String a s' => String a (drop_last s')
  end.

(** [s.startswith(prefix)] *)
Fixpoint startswith (s prefix : string) : bool :=
  match prefix, s with
  | EmptyString, _ => true
  | String p prefix', String a s' => Ascii.eqb a p && startswith s' prefix'
  | String _ _, EmptyString => false
  end.

(** [sub in s] *)
Fixpoint contains (s sub : string) : bool :=
  startswith s sub
  || match s with
     | EmptyString => false
     | String _ s' => contains s' sub
     end.

(** [re.sub(r'[^A-Za-z0-9]', '_', s)] *)
Fixpoint sub_non_alnum (s : string) : string :=
  match s with
  | EmptyString => EmptyString
  | String c s' =>
      String (if is_upper c || is_lower c || is_digit c then c else "_"%char)
             (sub_non_alnum s')
  end.

End Str.

(** ** Python values and exceptions *)

(** Exact runtime types; [TUser name base] is a class defined elsewhere
    that derives from [base] (a namedtuple, an [OrderedDict], a subclass
    of [LoaderResponse], ...). *)
Inductive pytype :=
| TNoneType | TBool | TInt | TStr | TTuple | TList | TDict
| TLoaderResponse
| TObject
| TUser (name : string) (base : pytype).

Inductive pyval :=
| VNone
| VBool (b : bool)
| VInt (z : Z)
| VStr (s : string)
| VTuple (items : list pyval)
| VList (items : list pyval)
| VDict (items : list (pyval * pyval))
| VLoaderResponse (_body _code : pyval)
| VInstance (name : string) (base : pytype) (state : pyval).

(** [type(v)] *)
Definition type_of (v : pyval) : pytype :=
  match v with
  | VNone => TNoneType
  | VBool _ => TBool
  | VInt _ => TInt
  | VStr _ => TStr
  | VTuple _ => TTuple
  | VList _ => TList
  | VDict _ => TDict
  | VLoaderResponse _ _ => TLoaderResponse
  | VInstance name base _ => TUser name base
  end.

Global Instance pytype_eq_dec : EqDecision pytype.
Proof. solve_decision. Defined.

(** [issubclass(t, target)] for a built-in [target] other than [object]
    and [int]: [t] is [target] or a class that derives from it. *)
Fixpoint issubclass (t target : pytype) : bool :=
  bool_decide (t = target)
  || match t with
     | TUser _ base => issubclass base target
     | _ => false
     end.

(** An ordered sequence in the tuple-like sense: an instance of [tuple],
    of [list] or of a class derived from one of them. *)
Definition is_sequence (v : pyval) : bool :=
  issubclass (type_of v) TTuple || issubclass (type_of v) TList.

Inductive exn :=
| ValueError (msg : string)
| TypeError (msg : string)
| ReferenceError (msg : string)
| Exception (name msg : string).

(** What a call gives back: a value or a raised exception. *)
Inductive outcome :=
| Returned (v : pyval)
| Raised (e : exn).

(** [LoaderResponse(body, code=200)] *)
Definition LoaderResponse (body : pyval) (code : option pyval) : pyval :=
  VLoaderResponse body (default (VInt 200) code).

(** ** Resource classes and [wrapped_cls] *)

Definition kwargs := list (string * pyval).

(** A loader is called as [loader( *args, **kwargs)]. *)
Definition Loader := list pyval → kwargs → outcome.

(** A resource class is either a class of the application, known by its
    name, what its own [dispatch_request] answers and its optional
    [restful_loader] attribute, or the class [Wrapped] that [wrapped_cls]
    builds around a class and a loader. *)
Inductive pyclass :=
| Resource (__name__ : string) (dispatch : list pyval → kwargs → outcome)
           (restful_loader : option Loader)
| Wrapped (cls : pyclass) (loader : Loader) (__name__ : string).

Definition wrapped_cls (cls : pyclass) (loader : Loader) : pyclass :=
  Wrapped cls loader "Wrapped".

(** [c.__name__ = name] *)
Definition set___name__ (c : pyclass) (name : string) : pyclass :=
  match c with
  | Resource _ d rl => Resource name d rl
  | Wrapped cls loader _ => Wrapped cls loader name
  end.

(** [getattr(c, 'restful_loader', None)]; [Wrapped] inherits it. *)
Fixpoint restful_loader_of (c : pyclass) : option Loader :=
  match c with
  | Resource _ _ rl => rl
  | Wrapped cls _ _ => restful_loader_of cls
  end.

(** [hasattr(single, 'restful_loader')], [single] possibly [None] *)
Definition hasattr_restful_loader (single : option pyclass) : bool :=
  match single with
  | Some c => bool_decide (is_Some (restful_loader_of c))
  | None => false
  end.

(** The calls received by the application's own [dispatch_request]s:
    class name, positional arguments, keyword arguments. *)
Definition CallLog := list (string * list pyval * kwargs).

(** [f( **d)]: the keys of [d] have to be strings. *)
Fixpoint as_keywords (d : list (pyval * pyval)) : option kwargs :=
  match d with
  | [] => Some []
  | (VStr k, v) :: d' => cons (k, v) <$> as_keywords d'
  | _ => None
  end.

(** [cls.dispatch_request(self, *args, **kwargs)].  For [Wrapped] this is
    the method of [wrapped_cls]; [super().dispatch_request] is the
    recursive call on the wrapped class. *)
Fixpoint dispatch_request (c : pyclass) (args : list pyval) (kw : kwargs)
    (log : CallLog) : outcome * CallLog :=
  match c with
  | Resource name dispatch _ => (dispatch args kw, log ++ [(name, args, kw)])
  | Wrapped cls loader _ =>
      match loader args kw with
      | Raised e => (Raised e, log)
      | Returned loader_resp =>
          match loader_resp with
          | VLoaderResponse _body _code =>
              (Returned (VTuple [_body; _code]), log)
          | VTuple items =>
              dispatch_request cls items [] log
          | VDict items =>
              match as_keywords items with
              | Some kw' => dispatch_request cls args kw' log
              | None => (Raised (TypeError "keywords must be strings"), log)
              end
          | _ =>
              dispatch_request cls [loader_resp] [] log
          end
      end
  end.

(** ** The object store *)

Abbreviation loc := nat.

(** The attributes of a [Route] instance. *)
Record RouteObj := mkRoute {
  _children : list loc;
  _endpoint : string;
  _route : string;
  _single : option pyclass;
  _plural : option pyclass;
  _single_type : string;
  _safe_endpoint : string;
  _parent : option loc;          (* [None] or a [weakref.proxy] *)
  _loader : option Loader
}.

(** One call [api.add_resource(resource, url, endpoint=endpoint)]. *)
Record Registration := mkReg {
  reg_resource : pyclass;
  reg_url : string;
  reg_endpoint : string
}.

(** A [flask_restful.Api], seen as the calls of [add_resource] it got;
    a fresh instance is [[]]. *)
Abbreviation Api := (list Registration).

Record World := mkWorld {
  routes : gmap loc RouteObj;
  apis : gmap loc Api;
  next_loc : loc
}.

Definition empty_world : World := mkWorld ∅ ∅ 0.

(** ** A state and exception monad *)

Inductive result (A : Type) :=
| Return (a : A)
| Raise (e : exn)
| NoSuchObject (l : loc)       (* a strong reference to nothing *)
| OutOfFuel.

Arguments Return {A} a.
Arguments Raise {A} e.
Arguments NoSuchObject {A} l.
Arguments OutOfFuel {A}.

Definition M (A : Type) : Type := World → result A * World.

Global Instance M_ret : MRet M := λ A a w, (Return a, w).

Global Instance M_bind : MBind M := λ A B f m w,
  match m w with
  | (Return a, w') => f a w'
  | (Raise e, w') => (Raise e, w')
  | (NoSuchObject l, w') => (NoSuchObject l, w')
  | (OutOfFuel, w') => (OutOfFuel, w')
  end.

Definition raise {A} (e : exn) : M A := λ w, (Raise e, w).

Definition out_of_fuel {A} : M A := λ w, (OutOfFuel, w).

(** [object.__new__]: a reference nothing else holds. *)
Definition alloc : M loc :=
  λ w, (Return (next_loc w), mkWorld (routes w) (apis w) (S (next_loc w))).

(** Follow a strong reference to a [Route]. *)
Definition deref (l : loc) : M RouteObj :=
  λ w, match routes w !! l with
       | Some o => (Return o, w)
       | None => (NoSuchObject l, w)
       end.

(** Follow a [weakref.proxy]: a dead referent raises [ReferenceError]. *)
Definition deref_proxy (l : loc) : M RouteObj :=
  λ w, match routes w !! l with
       | Some o => (Return o, w)
       | None =>
           (Raise (ReferenceError "weakly-referenced object no longer exists"), w)
       end.

Definition with_parent (p : option loc) (o : RouteObj) : RouteObj :=
  mkRoute (_children o) (_endpoint o) (_route o) (_single o) (_plural o)
          (_single_type o) (_safe_endpoint o) p (_loader o).

Definition with_loader (l : option Loader) (o : RouteObj) : RouteObj :=
  mkRoute (_children o) (_endpoint o) (_route o) (_single o) (_plural o)
          (_single_type o) (_safe_endpoint o) (_parent o) l.

(** [child._parent = weakref.proxy(self)] *)
Definition set_parent (child self : loc) : M unit :=
  λ w, (Return (), mkWorld (alter (with_parent (Some self)) child (routes w))
                           (apis w) (next_loc w)).

(** The instance at [self] is complete and kept by the caller. *)
Definition store (self : loc) (o : RouteObj) : M unit :=
  λ w, (Return (), mkWorld (<[self := o]> (routes w)) (apis w) (next_loc w)).

(** [flask_restful.Api()] *)
Definition Api_new : M loc :=
  λ w, (Return (next_loc w),
        mkWorld (routes w) (<[next_loc w := []]> (apis w)) (S (next_loc w))).

(** [api.add_resource(resource, url, endpoint=endpoint)] *)
Definition add_resource (api : loc) (resource : pyclass) (url endpoint : string)
    : M unit :=
  λ w, (Return (),
        mkWorld (routes w)
                (alter (λ a, a ++ [mkReg resource url endpoint]) api (apis w))
                (next_loc w)).

(** [for x in xs: body(x)] *)
Fixpoint for_each {A} (xs : list A) (body : A → M unit) : M unit :=
  match xs with
  | [] => mret ()
  | x :: xs' => body x ;; for_each xs' body
  end.

(** ** [Route] *)

(** [Route(endpoint, route, plural, single, children, single_type, loader)];
    the defaults of the optional arguments are [None], [None], [None],
    ['int'] and [None].  When [__init__] raises, the instance is dropped
    with the exception, so its reference stays dead. *)
Definition Route_new (endpoint route : string) (plural single : option pyclass)
    (children : option (list loc)) (single_type : string)
    (loader : option Loader) : M loc :=
  self ← alloc;
  let children := default [] children in
  if Str.endswith (Str.lower endpoint) "s" then
    raise (ValueError ("Endpoints must be singular. Passed endpoint "
                       +:+ endpoint +:+ " with route " +:+ route))
  else
    let o := mkRoute children endpoint route single plural single_type
                     (Str.sub_non_alnum endpoint) None loader in
    for_each children (λ child, set_parent child self) ;;
    if hasattr_restful_loader single then
      match loader with
      | Some _ =>
          raise (ValueError
            "Please specify either `single.restful_loader` or `loader`")
      | None =>
          store self (with_loader (single ≫= restful_loader_of) o) ;;
          mret self
      end
    else
      store self o ;; mret self.

Definition default_single_type : string := "int".

(** The property [Route._plural_endpoint] *)
Definition _plural_endpoint (self : RouteObj) : string :=
  if Str.endswith (Str.lower (_endpoint self)) "y" then
    Str.drop_last (_endpoint self) +:+ "ies"
  else
    _endpoint self +:+ "s".

(** The block [if self._plural: ...] of [register_routes]. *)
Definition register_plural (o : RouteObj) (api : loc)
    (plural_endpoint base_path : string) : M unit :=
  match _plural o with
  | Some plural =>
      plural_cls ←
        match _parent o with
        | Some parent =>
            p ← deref_proxy parent;
            match _loader p with
            | Some parent_loader =>
                mret (set___name__ (wrapped_cls plural parent_loader)
                                   plural_endpoint)
            | None => mret plural
            end
        | None => mret plural
        end;
      add_resource api plural_cls base_path plural_endpoint
  | None => mret ()
  end.

(** The block [if self._single: ...] of [register_routes]. *)
Definition register_single (o : RouteObj) (api : loc)
    (single_endpoint single_path : string) : M unit :=
  match _single o with
  | Some single =>
      let single_cls :=
        match _loader o with
        | Some loader =>
            set___name__ (wrapped_cls single loader) single_endpoint
        | None => single
        end in
      add_resource api single_cls single_path single_endpoint
  | None => mret ()
  end.

(** [Route.register_routes(self, api, endpoint, route)]; [fuel] bounds
    the depth of the recursion. *)
Fixpoint Route_register_routes (fuel : nat) (self api : loc)
    (endpoint route : string) : M unit :=
  match fuel with
  | 0 => out_of_fuel
  | S fuel' =>
      o ← deref self;
      let single_endpoint := endpoint +:+ _endpoint o in
      let plural_endpoint := endpoint +:+ _plural_endpoint o in
      let base_path := route +:+ _route o in
      let single_path :=
        base_path +:+ "/<" +:+ _single_type o +:+ ":" +:+ _safe_endpoint o
                  +:+ "_id>" in
      register_plural o api plural_endpoint base_path ;;
      register_single o api single_endpoint single_path ;;
      for_each (_children o) (λ child,
        Route_register_routes fuel' child api (plural_endpoint +:+ "-")
                              single_path)
  end.

(** ** [RootRoute] *)

Record RootRouteObj := mkRoot { root_children : list loc }.

(** [RootRoute(children)] *)
Definition RootRoute_new (children : option (list loc)) : RootRouteObj :=
  mkRoot (default [] children).

(** [RootRoute.register_routes(self, api)] *)
Definition RootRoute_register_routes (fuel : nat) (self : RootRouteObj)
    (api : loc) : M unit :=
  for_each (root_children self) (λ child,
    Route_register_routes fuel child api EmptyString EmptyString).

(** ** Well-formed stores *)

(** Children are built before their parent and are kept alive by it. *)
Definition wf_routes (rs : gmap loc RouteObj) : Prop :=
  ∀ l o, rs !! l = Some o →
    ∀ c, c ∈ _children o → c < l ∧ is_Some (rs !! c).

(** No weak parent reference is dead. *)
Definition parents_live (rs : gmap loc RouteObj) : Prop :=
  ∀ l o p, rs !! l = Some o → _parent o = Some p → is_Some (rs !! p).

(** Every reference in use was handed out by [alloc]. *)
Definition allocated (w : World) : Prop :=
  (∀ l, is_Some (routes w !! l) → l < next_loc w)
  ∧ (∀ l, is_Some (apis w !! l) → l < next_loc w).

Definition wf_world (w : World) : Prop :=
  allocated w ∧ wf_routes (routes w).

(** The registrations an [Api] has received so far. *)
Definition resources (api : loc) (w : World) : list Registration :=
  default [] (apis w !! api).

(** [record api regs a]: the api at [api] gets [regs] appended. *)
Definition record (api : loc) (regs : list Registration)
    (a : gmap loc Api) : gmap loc Api :=
  alter (λ x, x ++ regs) api a.

(** [adopt self children rs]: every child's [_parent] is set to [self]. *)
Definition adopt (self : loc) (children : list loc)
    (rs : gmap loc RouteObj) : gmap loc RouteObj :=
  foldl (λ m child, alter (with_parent (Some self)) child m) rs children.

(** The attributes of the instance [Route.__init__] completes, when its
    loader ends up as [l]. *)
Definition built (endpoint route : string) (plural single : option pyclass)
    (children : option (list loc)) (single_type : string)
    (l : option Loader) : RouteObj :=
  mkRoute (default [] children) endpoint route single plural single_type
          (Str.sub_non_alnum endpoint) None l.

(** [m], given an api, reads the routes [rs] only and does nothing but
    append the same registrations [regs] to that api. *)
Definition appends (m : loc → M unit) (rs : gmap loc RouteObj)
    (r : result unit) (regs : list Registration) : Prop :=
  ∀ api a n,
    m api (mkWorld rs a n) = (r, mkWorld rs (record api regs a) n).

(** ** Two small applications *)

(** [b = Route('post', '/posts', P, p)],
    [a = Route('user', '/users', U, u, [b], loader=L)],
    [RootRoute([a]).register_routes(api)] on a new [api]. *)
Definition users_posts_app (U u P p : pyclass) (L : Loader) (fuel : nat)
    : M loc :=
  b ← Route_new "post" "/posts" (Some P) (Some p) None default_single_type None;
  a ← Route_new "user" "/users" (Some U) (Some u) (Some [b])
               default_single_type (Some L);
  api ← Api_new;
  RootRoute_register_routes fuel (RootRoute_new (Some [a])) api ;;
  mret api.

(** Three levels: an organisation with a loader, a team without one and
    the members of a team; then a new [api].  The result is the reference
    of the innermost route and that of the api. *)
Definition org_team_member_app (O T Ms : pyclass) (L : Loader)
    : M (loc * loc) :=
  m ← Route_new "member" "/members" (Some Ms) None None default_single_type
               (Some L);
  t ← Route_new "team" "/teams" (Some T) None (Some [m]) default_single_type
               None;
  _ ← Route_new "org" "/orgs" (Some O) None (Some [t]) default_single_type
               (Some L);
  api ← Api_new;
  mret (m, api).

(** A class without [restful_loader] and a loader, for the examples. *)
Definition plain (name : string) : pyclass :=
  Resource name (λ _ _, Returned VNone) None.

Definition by_id : Loader := λ args kw, Returned (VDict []).

(** The store after [org_team_member_app] and a second new api: the
    routes are at 0 (member), 1 (team) and 2 (org), the apis at 3 and 4. *)
Definition org_world : World :=
  snd ((org_team_member_app (plain "Orgs") (plain "Teams") (plain "Members")
          by_id ;; Api_new) empty_world).

(** ** The claims in the words of the specification *)

(** [s] ends in the character [c]. *)
Definition ends_in (s : string) (c : ascii) : Prop :=
  ∃ s', s = s' +:+ String c EmptyString.

(** Pluralisation as the specification words it: a trailing [y] becomes
    [ies], anything else gets an [s]. *)
Definition plural_as_specified (e : string) : string :=
  if Str.endswith e "y" then Str.drop_last e +:+ "ies" else e +:+ "s".

(** A shop with its items, both with the two classes; the items have a
    loader, the shop has none.  The routes are at 0 (item) and 1 (shop),
    the api at 2. *)
Definition shop_world : World :=
  snd ((item ← Route_new "item" "/items" (Some (plain "Items"))
                 (Some (plain "Item")) None default_single_type (Some by_id);
        _ ← Route_new "shop" "/shops" (Some (plain "Shops"))
              (Some (plain "Shop")) (Some [item]) default_single_type None;
        Api_new) empty_world).

(** A shop with two kinds of children, items and clerks.  The routes are
    at 0 (item), 1 (clerk) and 2 (shop), the api at 3. *)
Definition mall_world : World :=
  snd ((item ← Route_new "item" "/items" (Some (plain "Items"))
                 (Some (plain "Item")) None default_single_type (Some by_id);
        clerk ← Route_new "clerk" "/clerks" (Some (plain "Clerks")) None None
                  default_single_type None;
        _ ← Route_new "shop" "/shops" (Some (plain "Shops"))
              (Some (plain "Shop")) (Some [item; clerk]) default_single_type
              (Some by_id);
        Api_new) empty_world).

(** ** Class objects

    The registrations above record which class each [add_resource] got
    by its description.  Python hands over class objects, and every
    execution of the statement [class Wrapped(cls)] in [wrapped_cls]
    makes a new one.  The definitions below follow the same code and
    keep the class objects apart by their address. *)

(** A class object: a class the application defined, or the object made
    by one execution of [wrapped_cls], at the address [addr]. *)
Inductive classobj :=
| Given (c : pyclass)
| Made (addr : loc) (c : pyclass).



Record ObjRegistration := mkObjReg {
  obj_resource : classobj;
  obj_url : string;
  obj_endpoint : string
}.

Record Heap := mkHeap {
  heap_routes : gmap loc RouteObj;
  heap_apis : gmap loc (list ObjRegistration);
  heap_next : loc
}.

Definition MO (A : Type) : Type := Heap → result A * Heap.

Global Instance MO_ret : MRet MO := λ A a h, (Return a, h).

Global Instance MO_bind : MBind MO := λ A B f m h,
  match m h with
  | (Return a, h') => f a h'
  | (Raise e, h') => (Raise e, h')
  | (NoSuchObject l, h') => (NoSuchObject l, h')
  | (OutOfFuel, h') => (OutOfFuel, h')
  end.



















(** ** Further notions used in the statements *)

(** A character that [re.sub(r'[^A-Za-z0-9]', '_', ...)] can leave behind. *)
Definition safe_char (c : ascii) : bool :=
  Str.is_upper c || Str.is_lower c || Str.is_digit c
  || bool_decide (c = "_"%char).

(** The characters of a string. *)
Fixpoint chars (s : string) : list ascii :=
  match s with
  | EmptyString => []
  | String c s' => c :: chars s'
  end.

(** The stores a program reaches with the constructors alone: [Route]
    called on routes that exist, whether it returns or raises, and
    [flask_restful.Api]. *)
Inductive constructed : World → Prop :=
| constructed_empty : constructed empty_world
| constructed_Route endpoint route plural single children single_type loader w :
    constructed w →
    (∀ c, c ∈ default [] children → is_Some (routes w !! c)) →
    constructed
      (snd (Route_new endpoint route plural single children single_type
              loader w))
| constructed_Api w :
    constructed w → constructed (snd (Api_new w)).

(** A call that came to an end in the terms of Python: it returned, or a
    dead weak reference raised [ReferenceError]. *)
Definition finished (r : result unit) : Prop :=
  r = Return () ∨ ∃ msg, r = Raise (ReferenceError msg).

(** The class of the application at the bottom of a tower of wrappers. *)
Fixpoint innermost (c : pyclass) : string :=
  match c with
  | Resource name _ _ => name
  | Wrapped cls _ _ => innermost cls
  end.

(** The registration is for a url under [P] and an endpoint under [E]. *)
Definition under (E P : string) (reg : Registration) : Prop :=
  Str.startswith (reg_url reg) P = true
  ∧ Str.startswith (reg_endpoint reg) E = true.

(** * Properties *)

(** ** Strings *)

Section StringFacts.

Implicit Types (s t : string) (c x : ascii).

Lemma append_nil_l s : EmptyString +:+ s = s.
Proof. reflexivity. Qed.

Lemma append_cons a s t : String a s +:+ t = String a (s +:+ t).
Proof. reflexivity. Qed.

Lemma append_nil_r s : s +:+ EmptyString = s.
Proof.
  induction s as [|a s IH]; [done |]. by rewrite append_cons, IH.
Qed.

Lemma append_assoc s t u : (s +:+ t) +:+ u = s +:+ t +:+ u.
Proof.
  induction s as [|a s IH]; [done |]. by rewrite !append_cons, IH.
Qed.

Lemma ends_in_nil c : ¬ ends_in EmptyString c.
Proof. intros [[|a s'] H]; discriminate H. Qed.

Lemma ends_in_cons a s c :
  ends_in (String a s) c ↔ (s = EmptyString ∧ a = c) ∨ ends_in s c.
Proof.
  split.
  - intros [[|b s'] H].
    + rewrite append_nil_l in H. injection H as -> ->. by left.
    + rewrite append_cons in H. injection H as -> ->. right. by exists s'.
  - intros [[-> ->] | [s' ->]].
    + by exists EmptyString.
    + by exists (String a s').
Qed.

Lemma endswith_char s c :
  Str.endswith s (String c EmptyString) = true ↔ ends_in s c.
Proof.
  induction s as [|a s IH].
  - simpl. split; [done | by intros ?%ends_in_nil].
  - rewrite ends_in_cons, <- IH.
    change (Str.endswith (String a s) (String c EmptyString))
      with (String.eqb (String a s) (String c EmptyString)
            || Str.endswith s (String c EmptyString)).
    rewrite orb_true_iff, String.eqb_eq.
    split; (intros [H | H]; [left | by right]).
    + by injection H as -> ->.
    + destruct H as [-> ->]. done.
Qed.

Lemma ends_in_lower s x :
  ends_in (Str.lower s) x ↔ ∃ c, Str.lower_char c = x ∧ ends_in s c.
Proof.
  induction s as [|a s IH]; simpl.
  - split; [by intros ?%ends_in_nil | by intros (c & _ & ?%ends_in_nil)].
  - rewrite ends_in_cons, IH. split.
    + intros [[Hs <-] | (c & Hc & Hs)].
      * exists a. split; [done |]. apply ends_in_cons. left.
        by destruct s.
      * exists c. split; [done |]. apply ends_in_cons. by right.
    + intros (c & Hc & [[-> ->] | Hs]%ends_in_cons).
      * by left.
      * right. by exists c.
Qed.

Lemma lower_char_s c :
  Str.lower_char c = "s"%char ↔ c = "s"%char ∨ c = "S"%char.
Proof.
  destruct c as [[] [] [] [] [] [] [] []]; vm_compute;
    split; intros; try discriminate; try tauto;
    repeat match goal with H : _ ∨ _ |- _ => destruct H end; discriminate.
Qed.

Lemma lower_char_y c :
  Str.lower_char c = "y"%char ↔ c = "y"%char ∨ c = "Y"%char.
Proof.
  destruct c as [[] [] [] [] [] [] [] []]; vm_compute;
    split; intros; try discriminate; try tauto;
    repeat match goal with H : _ ∨ _ |- _ => destruct H end; discriminate.
Qed.

Lemma not_ends_in s c :
  Str.endswith s (String c EmptyString) = false → ¬ ends_in s c.
Proof. intros H E%endswith_char. congruence. Qed.

(** [endpoint.lower().endswith('s')] looks at the last character only. *)
Lemma lower_endswith_s s :
  Str.endswith (Str.lower s) "s" = true
  ↔ ends_in s "s" ∨ ends_in s "S".
Proof.
  rewrite endswith_char, ends_in_lower. split.
  - intros (c & [-> | ->]%lower_char_s & H); tauto.
  - intros [H | H]; eexists; (split; [| exact H]); done.
Qed.

Lemma lower_endswith_y s :
  Str.endswith (Str.lower s) "y" = true
  ↔ ends_in s "y" ∨ ends_in s "Y".
Proof.
  rewrite endswith_char, ends_in_lower. split.
  - intros (c & [-> | ->]%lower_char_y & H); tauto.
  - intros [H | H]; eexists; (split; [| exact H]); done.
Qed.

Lemma drop_last_snoc s c : Str.drop_last (s +:+ String c EmptyString) = s.
Proof.
  induction s as [|a s IH]; [done |].
  rewrite append_cons. simpl. rewrite IH. by destruct s.
Qed.

End StringFacts.

(** ** The wrapped [dispatch_request] *)

Section WrappedDispatch.

Variables (cls : pyclass) (loader : Loader) (name : string).
Variables (args : list pyval) (kw : kwargs) (log : CallLog).

(** A tuple becomes the positional arguments, without keywords. *)
Lemma dispatch_tuple items :
  loader args kw = Returned (VTuple items) →
  dispatch_request (Wrapped cls loader name) args kw log
  = dispatch_request cls items [] log.
Proof. intros H. simpl. by rewrite H. Qed.

(** A dict becomes the keywords; the positional arguments stay as the
    caller gave them. *)
Lemma dispatch_dict items kw' :
  loader args kw = Returned (VDict items) →
  as_keywords items = Some kw' →
  dispatch_request (Wrapped cls loader name) args kw log
  = dispatch_request cls args kw' log.
Proof. intros H Hk. simpl. by rewrite H, Hk. Qed.

(** An exception of the loader is passed on. *)
Lemma dispatch_loader_raises e :
  loader args kw = Raised e →
  dispatch_request (Wrapped cls loader name) args kw log = (Raised e, log).
Proof. intros H. simpl. by rewrite H. Qed.

(** Any result whose type is none of the three tested ones is the sole
    positional argument. *)
Lemma dispatch_other v :
  loader args kw = Returned v →
  type_of v ≠ TLoaderResponse → type_of v ≠ TTuple → type_of v ≠ TDict →
  dispatch_request (Wrapped cls loader name) args kw log
  = dispatch_request cls [v] [] log.
Proof. intros H ???. simpl. rewrite H. by destruct v. Qed.

End WrappedDispatch.

(** C1, evaluated on the code.  The loader answers the dict
    [{'account': 7}] to a call with the positional argument [42]: the
    wrapped class is called with the keyword [account=7] and still with
    the positional argument [42], not with an empty positional list. *)
Theorem dict_result_keeps_positional_arguments
    (dispatch : list pyval → kwargs → outcome) :
  let inner := Resource "Account" dispatch None in
  let loader : Loader := λ _ _, Returned (VDict [(VStr "account", VInt 7)]) in
  dispatch_request (wrapped_cls inner loader) [VInt 42] [] []
  = (dispatch [VInt 42] [("account", VInt 7)],
     [("Account", [VInt 42], [("account", VInt 7)])])
  ∧ snd (dispatch_request (wrapped_cls inner loader) [VInt 42] [] [])
    ≠ [("Account", [], [("account", VInt 7)])].
Proof. split; [reflexivity | discriminate]. Qed.

(** C5.  When the loader returns a [LoaderResponse] with body [b] and
    code [c], the wrapped [dispatch_request] returns the pair [(b, c)]
    and the wrapped class receives no call: the call log is unchanged. *)
Theorem loader_response_short_circuits
    (cls : pyclass) (loader : Loader) (name : string)
    (args : list pyval) (kw : kwargs) (log : CallLog) (b c : pyval) :
  loader args kw = Returned (VLoaderResponse b c) →
  dispatch_request (Wrapped cls loader name) args kw log
  = (Returned (VTuple [b; c]), log).
Proof. intros H. simpl. by rewrite H. Qed.

Lemma loader_response_short_circuits_witness :
  let loader : Loader :=
    λ _ _, Returned (LoaderResponse (VStr "not found") (Some (VInt 404))) in
  dispatch_request
    (wrapped_cls (Resource "User" (λ _ _, Returned VNone) None) loader)
    [] [("user_id", VInt 3)] []
  = (Returned (VTuple [VStr "not found"; VInt 404]), []).
Proof.
  intros loader.
  apply (loader_response_short_circuits _ loader _ _ _ _
           (VStr "not found") (VInt 404)).
  reflexivity.
Defined.

(** C10.  The branches test the exact type: a list, or any other ordered
    sequence whose type is not exactly [tuple], is handed to the wrapped
    class whole, as the only positional argument and without keywords. *)
Theorem sequence_not_tuple_is_sole_argument
    (cls : pyclass) (loader : Loader) (name : string)
    (args : list pyval) (kw : kwargs) (log : CallLog) (v : pyval) :
  loader args kw = Returned v →
  is_sequence v = true →
  type_of v ≠ TTuple →
  dispatch_request (Wrapped cls loader name) args kw log
  = dispatch_request cls [v] [] log.
Proof.
  intros H Hseq Hty. simpl. rewrite H.
  destruct v; try done; by vm_compute in Hseq.
Qed.

Lemma sequence_not_tuple_is_sole_argument_witness :
  let xs := VList [VInt 1; VInt 2] in
  let point := VInstance "Point" TTuple (VTuple [VInt 1; VInt 2]) in
  let inner := Resource "Item" (λ _ _, Returned VNone) None in
  dispatch_request (wrapped_cls inner (λ _ _, Returned xs)) [VInt 9] [] []
  = (Returned VNone, [("Item", [xs], [])])
  ∧ dispatch_request (wrapped_cls inner (λ _ _, Returned point)) [VInt 9] [] []
    = (Returned VNone, [("Item", [point], [])]).
Proof.
  intros xs point inner. split.
  - apply (sequence_not_tuple_is_sole_argument inner (λ _ _, Returned xs)
             "Wrapped" [VInt 9] [] [] xs); [reflexivity | reflexivity | discriminate].
  - apply (sequence_not_tuple_is_sole_argument inner (λ _ _, Returned point)
             "Wrapped" [VInt 9] [] [] point);
      [reflexivity | reflexivity | discriminate].
Defined.

(** ** Pluralisation *)

(** C8 as stated fails: the test for a final [y] ignores case. *)
Lemma plural_as_specified_counterexample :
  let o := mkRoute [] "KEY" "/keys" None None "int" "KEY" None None in
  _plural_endpoint o = "KEies"
  ∧ plural_as_specified (_endpoint o) = "KEYs"
  ∧ _plural_endpoint o ≠ plural_as_specified (_endpoint o).
Proof. repeat split. discriminate. Qed.

(** C8, amended.  The plural endpoint is the endpoint with its last
    character replaced by [ies] when it ends in [y] or [Y], and the
    endpoint followed by [s] otherwise; so [user] gives [users],
    [category] gives [categories] and [class] gives [classs]. *)
Theorem plural_endpoint_rule :
  (∀ o s, _endpoint o = s +:+ "y" ∨ _endpoint o = s +:+ "Y" →
          _plural_endpoint o = s +:+ "ies")
  ∧ (∀ o, ¬ ends_in (_endpoint o) "y" → ¬ ends_in (_endpoint o) "Y" →
          _plural_endpoint o = _endpoint o +:+ "s")
  ∧ (∀ o, _endpoint o = "user" → _plural_endpoint o = "users")
  ∧ (∀ o, _endpoint o = "category" → _plural_endpoint o = "categories")
  ∧ (∀ o, _endpoint o = "class" → _plural_endpoint o = "classs").
Proof.
  split; [| split; [| repeat split; intros o H; unfold _plural_endpoint;
                      by rewrite H]].
  - intros o s H. unfold _plural_endpoint.
    assert (Str.endswith (Str.lower (_endpoint o)) "y" = true) as ->.
    { apply lower_endswith_y. destruct H as [-> | ->]; [left | right];
        by exists s. }
    destruct H as [-> | ->]; by rewrite drop_last_snoc.
  - intros o Hy HY. unfold _plural_endpoint.
    destruct (Str.endswith (Str.lower (_endpoint o)) "y") eqn:E; [| done].
    apply lower_endswith_y in E. tauto.
Qed.

Lemma plural_endpoint_rule_witness :
  let o e := mkRoute [] e "/x" None None "int" e None None in
  _plural_endpoint (o "FairY") = "Fairies"
  ∧ _plural_endpoint (o "category") = "categories"
  ∧ _plural_endpoint (o "box") = "boxs".
Proof.
  intros o. destruct plural_endpoint_rule as (Hy & Hs & _).
  split; [| split].
  - apply (Hy (o "FairY") "Fair"). by right.
  - apply (Hy (o "category") "categor"). by left.
  - apply (Hs (o "box")); by apply not_ends_in.
Defined.

(** ** The monad *)

Lemma bind_unfold {A B} (m : M A) (f : A → M B) (w : World) :
  (m ≫= f) w
  = match m w with
    | (Return a, w') => f a w'
    | (Raise e, w') => (Raise e, w')
    | (NoSuchObject l, w') => (NoSuchObject l, w')
    | (OutOfFuel, w') => (OutOfFuel, w')
    end.
Proof. reflexivity. Qed.

Lemma bind_Return {A B} (m : M A) (f : A → M B) (w w' : World) (a : A) :
  m w = (Return a, w') → (m ≫= f) w = f a w'.
Proof. intros H. by rewrite bind_unfold, H. Qed.

Lemma bind_Raise {A B} (m : M A) (f : A → M B) (w w' : World) (e : exn) :
  m w = (Raise e, w') → (m ≫= f) w = (Raise e, w').
Proof. intros H. by rewrite bind_unfold, H. Qed.

Lemma world_eta (w : World) : mkWorld (routes w) (apis w) (next_loc w) = w.
Proof. by destruct w. Qed.

(** ** Construction *)

Lemma adopt_cons self c children rs :
  adopt self (c :: children) rs
  = adopt self children (alter (with_parent (Some self)) c rs).
Proof. reflexivity. Qed.

Lemma for_each_set_parent self children w :
  for_each children (λ child, set_parent child self) w
  = (Return (), mkWorld (adopt self children (routes w)) (apis w) (next_loc w)).
Proof.
  revert w. induction children as [|c children IH]; intros w.
  - simpl. by rewrite world_eta.
  - change (for_each (c :: children) (λ child, set_parent child self))
      with (set_parent c self ;; for_each children (λ child, set_parent child self)).
    rewrite bind_unfold. unfold set_parent at 1. by rewrite IH.
Qed.

Section RouteNew.

Variables (endpoint route : string) (plural single : option pyclass).
Variables (children : option (list loc)) (single_type : string).
Variables (loader : option Loader) (w : World).

#[local] Abbreviation self := (next_loc w).
#[local] Abbreviation adopted := (adopt self (default [] children) (routes w)).
#[local] Abbreviation built :=
  (built endpoint route plural single children single_type).

Lemma Route_new_not_singular :
  Str.endswith (Str.lower endpoint) "s" = true →
  Route_new endpoint route plural single children single_type loader w
  = (Raise (ValueError ("Endpoints must be singular. Passed endpoint "
                        +:+ endpoint +:+ " with route " +:+ route)),
     mkWorld (routes w) (apis w) (S self)).
Proof.
  intros H. unfold Route_new. rewrite bind_unfold. unfold alloc.
  by rewrite H.
Qed.

Lemma Route_new_two_loaders l :
  Str.endswith (Str.lower endpoint) "s" = false →
  hasattr_restful_loader single = true →
  loader = Some l →
  Route_new endpoint route plural single children single_type loader w
  = (Raise (ValueError
              "Please specify either `single.restful_loader` or `loader`"),
     mkWorld adopted (apis w) (S self)).
Proof.
  intros H Hs ->. unfold Route_new. rewrite bind_unfold. unfold alloc.
  rewrite H, bind_unfold, for_each_set_parent. by rewrite Hs.
Qed.

Lemma Route_new_restful_loader :
  Str.endswith (Str.lower endpoint) "s" = false →
  hasattr_restful_loader single = true →
  loader = None →
  Route_new endpoint route plural single children single_type loader w
  = (Return self,
     mkWorld (<[self := built (single ≫= restful_loader_of)]> adopted)
             (apis w) (S self)).
Proof.
  intros H Hs ->. unfold Route_new. rewrite bind_unfold. unfold alloc.
  rewrite H, bind_unfold, for_each_set_parent. by rewrite Hs.
Qed.

Lemma Route_new_plain :
  Str.endswith (Str.lower endpoint) "s" = false →
  hasattr_restful_loader single = false →
  Route_new endpoint route plural single children single_type loader w
  = (Return self,
     mkWorld (<[self := built loader]> adopted) (apis w) (S self)).
Proof.
  intros H Hs. unfold Route_new. rewrite bind_unfold. unfold alloc.
  rewrite H, bind_unfold, for_each_set_parent. by rewrite Hs.
Qed.

End RouteNew.

Lemma hasattr_restful_loader_true single :
  hasattr_restful_loader single = true
  ↔ ∃ rl, single ≫= restful_loader_of = Some rl.
Proof.
  destruct single as [c|]; simpl.
  - rewrite bool_decide_eq_true. reflexivity.
  - split; [done | by intros [? ?]].
Qed.

Lemma hasattr_restful_loader_false single :
  hasattr_restful_loader single = false
  ↔ single ≫= restful_loader_of = None.
Proof.
  destruct single as [c|]; simpl; [| done].
  rewrite bool_decide_eq_false, <- eq_None_not_Some. reflexivity.
Qed.

(** C6.  Without a conflict between the two loader sources, constructing
    a [Route] succeeds when the endpoint ends neither in [s] nor in [S],
    and raises the error about singular endpoints when it ends in one of
    them; only the last character counts. *)
Theorem endpoint_must_be_singular
    (e route : string) (plural single : option pyclass)
    (children : option (list loc)) (single_type : string)
    (loader : option Loader) (w : World) :
  hasattr_restful_loader single = false ∨ loader = None →
  (¬ ends_in e "s" → ¬ ends_in e "S" →
     ∃ o w',
       Route_new e route plural single children single_type loader w
       = (Return (next_loc w), w')
       ∧ routes w' !! next_loc w = Some o ∧ _endpoint o = e)
  ∧ (ends_in e "s" ∨ ends_in e "S" →
       fst (Route_new e route plural single children single_type loader w)
       = Raise (ValueError ("Endpoints must be singular. Passed endpoint "
                            +:+ e +:+ " with route " +:+ route))).
Proof.
  intros Hsrc. split.
  - intros Hs HS.
    assert (Str.endswith (Str.lower e) "s" = false) as Hend.
    { destruct (Str.endswith (Str.lower e) "s") eqn:E; [| done].
      apply lower_endswith_s in E. tauto. }
    destruct (hasattr_restful_loader single) eqn:Hattr.
    + destruct Hsrc as [? | ->]; [done |].
      eexists _, _. split; [by apply Route_new_restful_loader |].
      split; [apply lookup_insert_eq | done].
    + eexists _, _. split; [by apply Route_new_plain |].
      split; [apply lookup_insert_eq | done].
  - intros H%lower_endswith_s. by rewrite Route_new_not_singular.
Qed.

Lemma endpoint_must_be_singular_witness :
  (∃ o w',
     Route_new "bus_stop" "/stops" None None None "int" None empty_world
     = (Return 0, w')
     ∧ routes w' !! 0 = Some o ∧ _endpoint o = "bus_stop")
  ∧ fst (Route_new "UserS" "/users" None None None "int" None empty_world)
    = Raise (ValueError
        "Endpoints must be singular. Passed endpoint UserS with route /users").
Proof.
  split.
  - apply (endpoint_must_be_singular "bus_stop" "/stops" None None None "int"
             None empty_world (or_intror eq_refl));
      by apply not_ends_in.
  - apply (endpoint_must_be_singular "UserS" "/users" None None None "int"
             None empty_world (or_intror eq_refl)).
    right. by exists "User".
Defined.

(** C7 as stated fails: the error raised for two loader sources carries
    a fixed message that names neither the endpoint nor the route. *)
Lemma two_loaders_message_counterexample :
  let L : Loader := λ _ _, Returned VNone in
  let u := Resource "User" (λ _ _, Returned VNone) (Some L) in
  ∃ msg,
    fst (Route_new "user" "/users" None (Some u) None "int" (Some L)
           empty_world)
    = Raise (ValueError msg)
    ∧ Str.contains msg "user" = false
    ∧ Str.contains msg "/users" = false.
Proof. eexists. repeat split. Qed.

(** C7, amended.  A [Route] built with both an explicit loader and a
    single class that has [restful_loader] raises [ValueError] from the
    constructor itself and no instance is returned; when the endpoint is
    singular the message is the fixed text asking for one of the two.
    For a singular endpoint, the instance has no loader when there is
    neither source, and has that loader when there is exactly one. *)
Theorem loader_sources
    (e route : string) (plural single : option pyclass)
    (children : option (list loc)) (single_type : string)
    (loader : option Loader) (w : World) :
  let run := Route_new e route plural single children single_type loader w in
  let singular := Str.endswith (Str.lower e) "s" = false in
  (∀ l rl, loader = Some l → single ≫= restful_loader_of = Some rl →
     ∃ msg, fst run = Raise (ValueError msg)
       ∧ (singular →
          msg = "Please specify either `single.restful_loader` or `loader`"))
  ∧ (singular → loader = None → single ≫= restful_loader_of = None →
       fst run = Return (next_loc w)
       ∧ _loader <$> routes (snd run) !! next_loc w = Some None)
  ∧ (∀ l, singular → loader = Some l → single ≫= restful_loader_of = None →
       fst run = Return (next_loc w)
       ∧ _loader <$> routes (snd run) !! next_loc w = Some (Some l))
  ∧ (∀ rl, singular → loader = None → single ≫= restful_loader_of = Some rl →
       fst run = Return (next_loc w)
       ∧ _loader <$> routes (snd run) !! next_loc w = Some (Some rl)).
Proof.
  intros run singular. subst run singular.
  split; [| split; [| split]].
  - intros l rl -> Hrl.
    destruct (Str.endswith (Str.lower e) "s") eqn:He.
    + rewrite Route_new_not_singular by done. eexists. split; [done | done].
    + erewrite Route_new_two_loaders; [| done | | done].
      * eexists. split; done.
      * apply hasattr_restful_loader_true. eauto.
  - intros He -> Hs.
    rewrite Route_new_plain; [| done | by apply hasattr_restful_loader_false].
    simpl. by rewrite lookup_insert_eq.
  - intros l He -> Hs.
    rewrite Route_new_plain; [| done | by apply hasattr_restful_loader_false].
    simpl. by rewrite lookup_insert_eq.
  - intros rl He -> Hs.
    rewrite Route_new_restful_loader; [| done | | done].
    + simpl. rewrite lookup_insert_eq. simpl. by rewrite Hs.
    + apply hasattr_restful_loader_true. eauto.
Qed.

Lemma loader_sources_witness :
  let L : Loader := λ _ _, Returned VNone in
  let u := Resource "User" (λ _ _, Returned VNone) (Some L) in
  (∃ msg,
     fst (Route_new "user" "/users" None (Some u) None "int" (Some L)
            empty_world)
     = Raise (ValueError msg)
     ∧ msg = "Please specify either `single.restful_loader` or `loader`")
  ∧ _loader <$> routes (snd (Route_new "user" "/users" None (Some u) None
                               "int" None empty_world)) !! 0
    = Some (Some L).
Proof.
  intros L u. split.
  - destruct (loader_sources "user" "/users" None (Some u) None "int" (Some L)
                empty_world) as (Hboth & _).
    destruct (Hboth L L eq_refl eq_refl) as (msg & Hmsg & Hfixed).
    exists msg. split; [exact Hmsg | by apply Hfixed].
  - destruct (loader_sources "user" "/users" None (Some u) None "int" None
                empty_world) as (_ & _ & _ & Hcap).
    by apply (Hcap L).
Defined.

(** ** Construction keeps the store well formed *)

Lemma with_parent_idemp p o : with_parent p (with_parent p o) = with_parent p o.
Proof. reflexivity. Qed.

Lemma adopt_lookup self children (rs : gmap loc RouteObj) l :
  adopt self children rs !! l
  = if bool_decide (l ∈ children)
    then with_parent (Some self) <$> rs !! l
    else rs !! l.
Proof.
  revert rs. induction children as [|c children IH]; intros rs.
  - rewrite bool_decide_eq_false_2; [done | by intros ?%elem_of_nil].
  - rewrite adopt_cons, IH. destruct (decide (l = c)) as [-> | Hne].
    + rewrite lookup_alter_eq.
      rewrite (bool_decide_eq_true_2 (c ∈ c :: children)) by (by left).
      case_bool_decide; [| done].
      destruct (rs !! c); simpl; [by rewrite with_parent_idemp | done].
    + rewrite lookup_alter_ne by done.
      case_bool_decide as Hin.
      * rewrite bool_decide_eq_true_2; [done | by right].
      * rewrite bool_decide_eq_false_2; [done |].
        intros [? | ?]%elem_of_cons; congruence.
Qed.

Lemma adopt_is_Some self children (rs : gmap loc RouteObj) l :
  is_Some (adopt self children rs !! l) ↔ is_Some (rs !! l).
Proof.
  rewrite adopt_lookup. case_bool_decide; [| done]. by rewrite fmap_is_Some.
Qed.

Lemma adopt_children self children (rs : gmap loc RouteObj) l o :
  adopt self children rs !! l = Some o →
  ∃ o', rs !! l = Some o' ∧ _children o = _children o'.
Proof.
  rewrite adopt_lookup. case_bool_decide; [| eauto].
  intros (o' & -> & ->)%fmap_Some. eauto.
Qed.

Lemma adopt_wf self children rs : wf_routes rs → wf_routes (adopt self children rs).
Proof.
  intros Hwf l o (o' & Ho' & Hch)%adopt_children c Hc.
  rewrite Hch in Hc. destruct (Hwf _ _ Ho' _ Hc) as [? ?].
  split; [done | by apply adopt_is_Some].
Qed.

(** Where [Route( ...)] leaves the store: untouched when the endpoint is
    refused, with the children adopted when the loaders clash, and with
    the new instance besides when it returns. *)
Lemma Route_new_cases endpoint route plural single children single_type
    loader w :
  let adopted := adopt (next_loc w) (default [] children) (routes w) in
  ∃ r rs',
    Route_new endpoint route plural single children single_type loader w
    = (r, mkWorld rs' (apis w) (S (next_loc w)))
    ∧ ((∃ e, r = Raise e ∧ (rs' = routes w ∨ rs' = adopted))
       ∨ (∃ l, r = Return (next_loc w)
            ∧ rs' = <[next_loc w :=
                       built endpoint route plural single children
                             single_type l]> adopted)).
Proof.
  intros adopted.
  destruct (Str.endswith (Str.lower endpoint) "s") eqn:He.
  - eexists _, _. split; [by apply Route_new_not_singular |].
    left. eauto.
  - destruct (hasattr_restful_loader single) eqn:Hs.
    + destruct loader as [l|].
      * eexists _, _. split; [by eapply Route_new_two_loaders |].
        left. eauto.
      * eexists _, _. split; [by apply Route_new_restful_loader |].
        right. eauto.
    + eexists _, _. split; [by apply Route_new_plain |]. right. eauto.
Qed.

Lemma Route_new_wf endpoint route plural single children single_type
    loader w :
  wf_world w →
  (∀ c, c ∈ default [] children → is_Some (routes w !! c)) →
  wf_world
    (snd (Route_new endpoint route plural single children single_type
            loader w)).
Proof.
  intros [[Hroutes Hapis] Hwf] Hchildren.
  destruct (Route_new_cases endpoint route plural single children single_type
              loader w) as (r & rs' & -> & Hcases).
  simpl. destruct Hcases as [(e & _ & [-> | ->]) | (ld & _ & ->)].
  - split; [split |]; simpl; [| | done].
    + intros l Hl. specialize (Hroutes l Hl). lia.
    + intros l Hl. specialize (Hapis l Hl). lia.
  - split; [split |]; simpl; [| | by apply adopt_wf].
    + intros l Hl%adopt_is_Some. specialize (Hroutes l Hl). lia.
    + intros l Hl. specialize (Hapis l Hl). lia.
  - split; [split |]; simpl.
    + intros l. rewrite lookup_insert_is_Some, adopt_is_Some.
      intros [<- | [_ Hl]]; [lia |]. specialize (Hroutes l Hl). lia.
    + intros l Hl. specialize (Hapis l Hl). lia.
    + intros l o Hl c Hc.
      rewrite lookup_insert_is_Some, adopt_is_Some.
      apply lookup_insert_Some in Hl as [[<- <-] | [Hne Hl]].
      * simpl in Hc. pose proof (Hchildren c Hc) as Hsome.
        specialize (Hroutes c Hsome).
        split; [lia |]. right. split; [lia | done].
      * destruct (adopt_wf _ _ _ Hwf _ _ Hl c Hc) as [Hlt Hsome].
        split; [done |]. apply adopt_is_Some in Hsome.
        right. split; [| done]. specialize (Hroutes c Hsome). lia.
Qed.

(** When [Route( ...)] returns, the children's [_parent] refer to the new
    instance, and no parent reference has died. *)
Lemma Route_new_parents_live endpoint route plural single children
    single_type loader w self w' :
  parents_live (routes w) →
  Route_new endpoint route plural single children single_type loader w
  = (Return self, w') →
  parents_live (routes w')
  ∧ ∀ c o, c ∈ default [] children → c ≠ self → routes w !! c = Some o →
      routes w' !! c = Some (with_parent (Some self) o).
Proof.
  intros Hlive Hrun.
  destruct (Route_new_cases endpoint route plural single children single_type
              loader w) as (r & rs' & Heq & Hcases).
  rewrite Hrun in Heq. injection Heq as <- ->.
  destruct Hcases as [(e & [=] & _) | (l & [= ->] & ->)]. simpl.
  split.
  - intros l0 o p Hl0 Hp.
    rewrite lookup_insert_is_Some, adopt_is_Some.
    apply lookup_insert_Some in Hl0 as [[<- <-] | [Hne Hl0]]; [done |].
    rewrite adopt_lookup in Hl0. case_bool_decide.
    + apply fmap_Some in Hl0 as (o' & _ & ->). simpl in Hp.
      injection Hp as <-. by left.
    + destruct (decide (next_loc w = p)) as [-> | Hnp]; [by left |].
      right. split; [done |]. by eapply Hlive.
  - intros c o Hc Hne Ho.
    rewrite lookup_insert_ne by done.
    rewrite adopt_lookup, bool_decide_eq_true_2 by done. by rewrite Ho.
Qed.

Lemma Api_new_wf w : wf_world w → wf_world (snd (Api_new w)).
Proof.
  intros [[Hroutes Hapis] Hwf]. split; [split |]; simpl; [| | done].
  - intros l Hl. specialize (Hroutes l Hl). lia.
  - intros l. rewrite lookup_insert_is_Some.
    intros [<- | [_ Hl]]; [lia |]. specialize (Hapis l Hl). lia.
Qed.

Lemma empty_world_wf : wf_world empty_world.
Proof.
  split; [split |]; simpl.
  - intros l [? H]. by rewrite lookup_empty in H.
  - intros l [? H]. by rewrite lookup_empty in H.
  - intros l o H. by rewrite lookup_empty in H.
Qed.

(** ** Registration only appends to the api *)

Lemma record_nil api (a : gmap loc Api) : record api [] a = a.
Proof. apply alter_id. intros x _. apply app_nil_r. Qed.

Lemma record_app api regs1 regs2 (a : gmap loc Api) :
  record api regs2 (record api regs1 a) = record api (regs1 ++ regs2) a.
Proof.
  unfold record. rewrite alter_alter_eq. apply alter_ext.
  intros x _. simpl. by rewrite app_assoc.
Qed.

Lemma record_lookup api regs (a : gmap loc Api) old :
  a !! api = Some old → record api regs a !! api = Some (old ++ regs).
Proof. intros H. unfold record. by rewrite lookup_alter_eq, H. Qed.

Lemma record_lookup_ne api api' regs (a : gmap loc Api) :
  api ≠ api' → record api regs a !! api' = a !! api'.
Proof. intros H. unfold record. by rewrite lookup_alter_ne. Qed.

Section Appends.

Variable rs : gmap loc RouteObj.

Lemma appends_ret : appends (λ _, mret ()) rs (Return ()) [].
Proof. intros api a n. by rewrite record_nil. Qed.

Lemma appends_add_resource resource url endpoint :
  appends (λ api, add_resource api resource url endpoint) rs
          (Return ()) [mkReg resource url endpoint].
Proof. by intros api a n. Qed.

(** Sequencing: the second part runs only when the first returns. *)
Lemma appends_seq m1 m2 r1 regs1 r2 regs2 :
  appends m1 rs r1 regs1 →
  appends m2 rs r2 regs2 →
  appends (λ api, m1 api ;; m2 api) rs
          (match r1 with Return _ => r2 | _ => r1 end)
          (match r1 with Return _ => regs1 ++ regs2 | _ => regs1 end).
Proof.
  intros H1 H2 api a n. rewrite bind_unfold, H1.
  destruct r1 as [[]| | |]; [| done..].
  by rewrite H2, record_app.
Qed.

Lemma appends_register_plural o plural_endpoint base_path :
  ∃ r regs,
    appends (λ api, register_plural o api plural_endpoint base_path) rs r regs.
Proof.
  unfold register_plural. destruct (_plural o) as [plural|].
  - destruct (_parent o) as [parent|].
    + destruct (rs !! parent) as [p|] eqn:Hp.
      * destruct (_loader p) as [l|] eqn:Hl; eexists _, _; intros api a n;
          rewrite bind_unfold, bind_unfold; unfold deref_proxy; simpl;
          rewrite Hp, Hl; reflexivity.
      * exists (Raise (ReferenceError
                         "weakly-referenced object no longer exists")), [].
        intros api a n.
        rewrite bind_unfold, bind_unfold; unfold deref_proxy; simpl.
        by rewrite Hp, record_nil.
    + eexists _, _. intros api a n. rewrite bind_unfold. reflexivity.
  - eexists _, _. apply appends_ret.
Qed.

Lemma appends_register_single o single_endpoint single_path :
  ∃ r regs,
    appends (λ api, register_single o api single_endpoint single_path) rs r regs.
Proof.
  unfold register_single. destruct (_single o) as [single|].
  - eexists _, _. apply appends_add_resource.
  - eexists _, _. apply appends_ret.
Qed.

Lemma appends_for_each {A} (body : loc → A → M unit) (xs : list A) :
  (∀ x, x ∈ xs → ∃ r regs, appends (λ api, body api x) rs r regs) →
  ∃ r regs, appends (λ api, for_each xs (body api)) rs r regs.
Proof.
  induction xs as [|x xs IH]; intros Hbody.
  - eexists _, _. apply appends_ret.
  - destruct (Hbody x) as (r1 & regs1 & H1); [by left |].
    destruct IH as (r2 & regs2 & H2).
    { intros y Hy. apply Hbody. by right. }
    eexists _, _. simpl. by apply (appends_seq _ _ _ _ _ _ H1 H2).
Qed.

Lemma appends_Route_register_routes fuel self endpoint route :
  ∃ r regs,
    appends (λ api, Route_register_routes fuel self api endpoint route)
            rs r regs.
Proof.
  revert self endpoint route.
  induction fuel as [|fuel IH]; intros self endpoint route.
  - exists OutOfFuel, []. intros api a n. simpl. unfold out_of_fuel.
    by rewrite record_nil.
  - destruct (rs !! self) as [o|] eqn:Ho.
    + destruct (appends_register_plural o (endpoint +:+ _plural_endpoint o)
                  (route +:+ _route o)) as (r1 & regs1 & H1).
      destruct (appends_register_single o (endpoint +:+ _endpoint o)
                  ((route +:+ _route o) +:+ "/<" +:+ _single_type o +:+ ":"
                     +:+ _safe_endpoint o +:+ "_id>"))
        as (r2 & regs2 & H2).
      destruct (appends_for_each
                  (λ api child,
                     Route_register_routes fuel child api
                       ((endpoint +:+ _plural_endpoint o) +:+ "-")
                       ((route +:+ _route o) +:+ "/<" +:+ _single_type o
                          +:+ ":" +:+ _safe_endpoint o +:+ "_id>"))
                  (_children o)) as (r3 & regs3 & H3).
      { intros child _. apply IH. }
      pose proof (appends_seq _ _ _ _ _ _ H1
                    (appends_seq _ _ _ _ _ _ H2 H3)) as H.
      eexists _, _. intros api a n.
      rewrite <- (H api a n). simpl. rewrite bind_unfold. unfold deref at 1.
      simpl. by rewrite Ho.
    + exists (NoSuchObject self), []. intros api a n.
      simpl. rewrite bind_unfold. unfold deref. simpl.
      by rewrite Ho, record_nil.
Qed.

Lemma appends_RootRoute_register_routes fuel root :
  ∃ r regs,
    appends (λ api, RootRoute_register_routes fuel root api) rs r regs.
Proof.
  unfold RootRoute_register_routes.
  apply (appends_for_each
           (λ api child,
              Route_register_routes fuel child api EmptyString EmptyString)).
  intros child _. apply appends_Route_register_routes.
Qed.

End Appends.

(** ** Registration returns on well-formed stores *)

Section Returns.

Variable rs : gmap loc RouteObj.
Hypothesis Hwf : wf_routes rs.
Hypothesis Hlive : parents_live rs.

Lemma appends_seq_Return m1 m2 regs1 regs2 :
  appends m1 rs (Return ()) regs1 →
  appends m2 rs (Return ()) regs2 →
  appends (λ api, m1 api ;; m2 api) rs (Return ()) (regs1 ++ regs2).
Proof. intros H1 H2. apply (appends_seq _ _ _ _ _ _ _ H1 H2). Qed.

Lemma register_plural_returns self o plural_endpoint base_path :
  rs !! self = Some o →
  ∃ regs,
    appends (λ api, register_plural o api plural_endpoint base_path) rs
            (Return ()) regs.
Proof.
  intros Ho. unfold register_plural. destruct (_plural o) as [plural|].
  - destruct (_parent o) as [parent|] eqn:Hparent.
    + destruct (Hlive _ _ _ Ho Hparent) as [p Hp].
      destruct (_loader p) as [l|] eqn:Hl; eexists; intros api a n;
        rewrite bind_unfold, bind_unfold; unfold deref_proxy; simpl;
        rewrite Hp, Hl; reflexivity.
    + eexists. intros api a n. rewrite bind_unfold. reflexivity.
  - eexists. apply appends_ret.
Qed.

Lemma register_single_returns o single_endpoint single_path :
  ∃ regs,
    appends (λ api, register_single o api single_endpoint single_path) rs
            (Return ()) regs.
Proof.
  unfold register_single. destruct (_single o) as [single|].
  - eexists. apply appends_add_resource.
  - eexists. apply appends_ret.
Qed.

Lemma for_each_returns {A} (body : loc → A → M unit) (xs : list A) :
  (∀ x, x ∈ xs → ∃ regs, appends (λ api, body api x) rs (Return ()) regs) →
  ∃ regs, appends (λ api, for_each xs (body api)) rs (Return ()) regs.
Proof.
  induction xs as [|x xs IH]; intros Hbody.
  - eexists. apply appends_ret.
  - destruct (Hbody x) as (regs1 & H1); [by left |].
    destruct IH as (regs2 & H2).
    { intros y Hy. apply Hbody. by right. }
    eexists. simpl. by apply (appends_seq_Return _ _ _ _ H1 H2).
Qed.

(** With fuel beyond the reference of the route, [register_routes]
    returns: children have smaller references than their parent. *)
Lemma Route_register_routes_returns fuel self endpoint route :
  is_Some (rs !! self) → self < fuel →
  ∃ regs,
    appends (λ api, Route_register_routes fuel self api endpoint route) rs
            (Return ()) regs.
Proof.
  revert self endpoint route.
  induction fuel as [|fuel IH]; intros self endpoint route [o Ho] Hlt; [lia |].
  destruct (register_plural_returns self o (endpoint +:+ _plural_endpoint o)
              (route +:+ _route o) Ho) as (regs1 & H1).
  destruct (register_single_returns o (endpoint +:+ _endpoint o)
              ((route +:+ _route o) +:+ "/<" +:+ _single_type o +:+ ":"
                 +:+ _safe_endpoint o +:+ "_id>")) as (regs2 & H2).
  destruct (for_each_returns
              (λ api child,
                 Route_register_routes fuel child api
                   ((endpoint +:+ _plural_endpoint o) +:+ "-")
                   ((route +:+ _route o) +:+ "/<" +:+ _single_type o
                      +:+ ":" +:+ _safe_endpoint o +:+ "_id>"))
              (_children o)) as (regs3 & H3).
  { intros child Hchild. destruct (Hwf _ _ Ho _ Hchild) as [Hc Hsome].
    apply IH; [done | lia]. }
  pose proof (appends_seq_Return _ _ _ _ H1
                (appends_seq_Return _ _ _ _ H2 H3)) as H.
  eexists. intros api a n.
  rewrite <- (H api a n). simpl. rewrite bind_unfold. unfold deref at 1.
  simpl. by rewrite Ho.
Qed.

Lemma RootRoute_register_routes_returns fuel root :
  (∀ c, c ∈ root_children root → is_Some (rs !! c) ∧ c < fuel) →
  ∃ regs,
    appends (λ api, RootRoute_register_routes fuel root api) rs
            (Return ()) regs.
Proof.
  intros Hroot. unfold RootRoute_register_routes.
  apply (for_each_returns
           (λ api child,
              Route_register_routes fuel child api EmptyString EmptyString)).
  intros child Hchild. destruct (Hroot _ Hchild).
  by apply Route_register_routes_returns.
Qed.

End Returns.

(** ** The registration claims *)

(** One unfolding of [register_routes] on a stored route. *)
Lemma Route_register_routes_S fuel self api E P w o :
  routes w !! self = Some o →
  Route_register_routes (S fuel) self api E P w
  = (register_plural o api (E +:+ _plural_endpoint o) (P +:+ _route o) ;;
     register_single o api (E +:+ _endpoint o)
       ((P +:+ _route o) +:+ "/<" +:+ _single_type o +:+ ":"
          +:+ _safe_endpoint o +:+ "_id>") ;;
     for_each (_children o) (λ child,
       Route_register_routes fuel child api
         ((E +:+ _plural_endpoint o) +:+ "-")
         ((P +:+ _route o) +:+ "/<" +:+ _single_type o +:+ ":"
            +:+ _safe_endpoint o +:+ "_id>"))) w.
Proof.
  intros Ho. simpl. rewrite bind_unfold. unfold deref at 1. by rewrite Ho.
Qed.

(** What [register_plural] registers, by the state of the weak parent
    reference. *)
Lemma register_plural_no_parent o api name url plural w :
  _plural o = Some plural → _parent o = None →
  register_plural o api name url w = add_resource api plural url name w.
Proof.
  intros Hpl Hpa. unfold register_plural. rewrite Hpl, Hpa. reflexivity.
Qed.

Lemma register_plural_parent o api name url plural parent p w :
  _plural o = Some plural → _parent o = Some parent →
  routes w !! parent = Some p →
  register_plural o api name url w
  = add_resource api
      (match _loader p with
       | Some l => Wrapped plural l name
       | None => plural
       end) url name w.
Proof.
  intros Hpl Hpa Hp. unfold register_plural. rewrite Hpl, Hpa.
  rewrite bind_unfold, bind_unfold. unfold deref_proxy. rewrite Hp.
  by destruct (_loader p).
Qed.

Lemma register_plural_dead_parent o api name url plural parent w :
  _plural o = Some plural → _parent o = Some parent →
  routes w !! parent = None →
  register_plural o api name url w
  = (Raise (ReferenceError "weakly-referenced object no longer exists"), w).
Proof.
  intros Hpl Hpa Hp. unfold register_plural. rewrite Hpl, Hpa.
  rewrite bind_unfold, bind_unfold. unfold deref_proxy. by rewrite Hp.
Qed.

(** When the plural block registers [cls], that is the first thing the
    api receives from the route. *)
Lemma plural_is_registered_first fuel self api E P w o old cls :
  routes w !! self = Some o →
  apis w !! api = Some old →
  register_plural o api (E +:+ _plural_endpoint o) (P +:+ _route o) w
  = add_resource api cls (P +:+ _route o) (E +:+ _plural_endpoint o) w →
  ∃ rest,
    resources api (snd (Route_register_routes (S fuel) self api E P w))
    = old ++ mkReg cls (P +:+ _route o) (E +:+ _plural_endpoint o) :: rest.
Proof.
  intros Ho Hold Hplural.
  rewrite (Route_register_routes_S fuel self api E P w o Ho).
  destruct (appends_register_single (routes w) o (E +:+ _endpoint o)
              ((P +:+ _route o) +:+ "/<" +:+ _single_type o +:+ ":"
                 +:+ _safe_endpoint o +:+ "_id>")) as (r2 & regs2 & H2).
  destruct (appends_for_each (routes w)
              (λ api child,
                 Route_register_routes fuel child api
                   ((E +:+ _plural_endpoint o) +:+ "-")
                   ((P +:+ _route o) +:+ "/<" +:+ _single_type o
                      +:+ ":" +:+ _safe_endpoint o +:+ "_id>"))
              (_children o)) as (r3 & regs3 & H3).
  { intros child _. apply appends_Route_register_routes. }
  pose proof (appends_seq _ _ _ _ _ _ _ H2 H3) as Hrest.
  rewrite bind_unfold, Hplural. unfold add_resource at 1.
  cbv beta in Hrest. rewrite Hrest. unfold resources. simpl.
  fold (record api [mkReg cls (P +:+ _route o) (E +:+ _plural_endpoint o)]
          (apis w)).
  rewrite record_app, (record_lookup _ _ _ old Hold). simpl. eauto.
Qed.

(** C4.  The plural class of a route is registered as it is when the
    route has no parent or its parent has no loader, whatever the loaders
    of the route itself and of remoter ancestors; it is registered wrapped
    with the parent's loader when the parent has one. *)
Theorem plural_inherits_parent_loader
    (fuel : nat) (self api : loc) (E P : string) (w : World)
    (o : RouteObj) (plural : pyclass) (old : list Registration) :
  routes w !! self = Some o →
  _plural o = Some plural →
  apis w !! api = Some old →
  let registered := resources api
    (snd (Route_register_routes (S fuel) self api E P w)) in
  let url := P +:+ _route o in
  let name := E +:+ _plural_endpoint o in
  (_parent o = None →
     ∃ rest, registered = old ++ mkReg plural url name :: rest)
  ∧ (∀ parent p, _parent o = Some parent → routes w !! parent = Some p →
       _loader p = None →
       ∃ rest, registered = old ++ mkReg plural url name :: rest)
  ∧ (∀ parent p l, _parent o = Some parent → routes w !! parent = Some p →
       _loader p = Some l →
       ∃ rest,
         registered = old ++ mkReg (Wrapped plural l name) url name :: rest).
Proof.
  intros Ho Hpl Hold registered url name. subst registered url name.
  split; [| split].
  - intros Hpa. apply plural_is_registered_first; [done | done |].
    by apply register_plural_no_parent.
  - intros parent p Hpa Hp Hl. apply plural_is_registered_first; [done..|].
    rewrite (register_plural_parent _ _ _ _ plural parent p) by done.
    by rewrite Hl.
  - intros parent p l Hpa Hp Hl. apply plural_is_registered_first; [done..|].
    rewrite (register_plural_parent _ _ _ _ plural parent p) by done.
    by rewrite Hl.
Qed.

Lemma plural_inherits_parent_loader_witness :
  (∃ rest,
     resources 3 (snd (Route_register_routes 1 0 3 "orgs-teams-"
                         "/orgs/<int:org_id>/teams/<int:team_id>" org_world))
     = [] ++ mkReg (plain "Members")
                   "/orgs/<int:org_id>/teams/<int:team_id>/members"
                   "orgs-teams-members" :: rest)
  ∧ (∃ rest,
       resources 3 (snd (Route_register_routes 2 1 3 "orgs-"
                           "/orgs/<int:org_id>" org_world))
       = [] ++ mkReg (Wrapped (plain "Teams") by_id "orgs-teams")
                     "/orgs/<int:org_id>/teams" "orgs-teams" :: rest).
Proof.
  split.
  - destruct (plural_inherits_parent_loader 0 0 3 "orgs-teams-"
                "/orgs/<int:org_id>/teams/<int:team_id>" org_world
                (with_parent (Some 1)
                   (built "member" "/members" (Some (plain "Members")) None
                      None "int" (Some by_id)))
                (plain "Members") [] eq_refl eq_refl eq_refl)
      as (_ & Hnone & _).
    apply (Hnone 1 (with_parent (Some 2)
                      (built "team" "/teams" (Some (plain "Teams")) None
                         (Some [0]) "int" None)));
      reflexivity.
  - destruct (plural_inherits_parent_loader 1 1 3 "orgs-"
                "/orgs/<int:org_id>" org_world
                (with_parent (Some 2)
                   (built "team" "/teams" (Some (plain "Teams")) None
                      (Some [0]) "int" None))
                (plain "Teams") [] eq_refl eq_refl eq_refl)
      as (_ & _ & Hsome).
    apply (Hsome 2 (built "org" "/orgs" (Some (plain "Orgs")) None
                      (Some [1]) "int" (Some by_id)) by_id);
      reflexivity.
Defined.

(** C2 as stated fails: the child's endpoint names start with the
    parent's plural endpoint, [users-], not with [user-]. *)
Lemma users_posts_counterexample :
  ∃ api w,
    users_posts_app (plain "Users") (plain "User") (plain "Posts")
      (plain "Post") by_id 2 empty_world = (Return api, w)
    ∧ reg_endpoint <$> resources api w
      = ["users"; "user"; "users-posts"; "users-post"]
    ∧ resources api w
      ≠ [ mkReg (plain "Users") "/users" "users";
          mkReg (Wrapped (plain "User") by_id "user")
                "/users/<int:user_id>" "user";
          mkReg (Wrapped (plain "Posts") by_id "user-posts")
                "/users/<int:user_id>/posts" "user-posts";
          mkReg (plain "Post") "/users/<int:user_id>/posts/<int:post_id>"
                "user-post" ].
Proof. eexists _, _. repeat split. discriminate. Qed.

(** C2, amended.  [Route('user', '/users', U, u, [b], loader=L)] over
    [b = Route('post', '/posts', P, p)], registered from a root on a new
    api, makes four registrations, in this order: [U] as it is at
    [/users] as [users]; [u] wrapped with [L] at [/users/<int:user_id>] as
    [user]; [P] wrapped with [L] at [/users/<int:user_id>/posts] as
    [users-posts]; [p] as it is at
    [/users/<int:user_id>/posts/<int:post_id>] as [users-post]. *)
Theorem users_posts_registrations
    (U u P p : pyclass) (L : Loader) (fuel : nat) :
  restful_loader_of u = None →
  restful_loader_of p = None →
  ∃ api w,
    users_posts_app U u P p L (2 + fuel) empty_world = (Return api, w)
    ∧ resources api w
      = [ mkReg U "/users" "users";
          mkReg (Wrapped u L "user") "/users/<int:user_id>" "user";
          mkReg (Wrapped P L "users-posts") "/users/<int:user_id>/posts"
                "users-posts";
          mkReg p "/users/<int:user_id>/posts/<int:post_id>" "users-post" ].
Proof.
  intros Hu Hp. unfold users_posts_app.
  rewrite bind_unfold, Route_new_plain;
    [| reflexivity | by apply hasattr_restful_loader_false].
  rewrite bind_unfold, Route_new_plain;
    [| reflexivity | by apply hasattr_restful_loader_false].
  eexists _, _. split; reflexivity.
Qed.

Lemma users_posts_registrations_witness :
  ∃ api w,
    users_posts_app (plain "Users") (plain "User") (plain "Posts")
      (plain "Post") by_id 2 empty_world = (Return api, w)
    ∧ resources api w
      = [ mkReg (plain "Users") "/users" "users";
          mkReg (Wrapped (plain "User") by_id "user")
                "/users/<int:user_id>" "user";
          mkReg (Wrapped (plain "Posts") by_id "users-posts")
                "/users/<int:user_id>/posts" "users-posts";
          mkReg (plain "Post") "/users/<int:user_id>/posts/<int:post_id>"
                "users-post" ].
Proof.
  apply (users_posts_registrations (plain "Users") (plain "User")
           (plain "Posts") (plain "Post") by_id 0); reflexivity.
Defined.

(** ** The example store is well formed *)

Lemma wf_routes_check (rs : gmap loc RouteObj) :
  map_Forall (λ l o, Forall (λ c, c < l ∧ is_Some (rs !! c)) (_children o)) rs →
  wf_routes rs.
Proof.
  intros H l o Hl c Hc. specialize (H l o Hl).
  rewrite Forall_forall in H. by apply H.
Qed.

Lemma parents_live_check (rs : gmap loc RouteObj) :
  map_Forall (λ l o, _parent o = None ∨ is_Some (_parent o ≫= (rs !!.))) rs →
  parents_live rs.
Proof.
  intros H l o p Hl Hp. destruct (H l o Hl) as [Hnone | Hsome].
  - congruence.
  - by rewrite Hp in Hsome.
Qed.

Lemma org_world_wf : wf_routes (routes org_world).
Proof.
  apply wf_routes_check.
  apply (bool_decide_unpack _). vm_compute. exact I.
Qed.

Lemma org_world_parents_live : parents_live (routes org_world).
Proof.
  apply parents_live_check.
  apply (bool_decide_unpack _). vm_compute. exact I.
Qed.

(** * Further properties of the module *)

(** ** Strings *)

Section MoreStringFacts.

Implicit Types (s t : string) (c : ascii).

Lemma length_append s t :
  String.length (s +:+ t) = String.length s + String.length t.
Proof.
  induction s as [|a s IH]; [done |]. rewrite append_cons. simpl.
  by rewrite IH.
Qed.

Lemma startswith_append s t : Str.startswith (s +:+ t) s = true.
Proof.
  induction s as [|a s IH]; [by destruct t |].
  rewrite append_cons. simpl. by rewrite Ascii.eqb_refl, IH.
Qed.

Lemma startswith_trans s t u :
  Str.startswith s (t +:+ u) = true → Str.startswith s t = true.
Proof.
  revert s. induction t as [|a t IH]; intros s; [by destruct s |].
  rewrite append_cons. destruct s as [|b s]; simpl; [done |].
  rewrite !andb_true_iff. intros [? ?]. split; [done | by apply IH].
Qed.

Lemma startswith_refl s : Str.startswith s s = true.
Proof.
  induction s as [|a s IH]; [done |]. simpl. by rewrite Ascii.eqb_refl, IH.
Qed.

Lemma contains_startswith s t :
  Str.startswith s t = true → Str.contains s t = true.
Proof. intros H. destruct s; simpl in *; by rewrite H. Qed.

Lemma contains_middle p s q : Str.contains (p +:+ s +:+ q) s = true.
Proof.
  induction p as [|a p IH].
  - rewrite append_nil_l. apply contains_startswith, startswith_append.
  - rewrite append_cons. simpl. rewrite IH. apply orb_true_r.
Qed.

Lemma contains_end p s : Str.contains (p +:+ s) s = true.
Proof. rewrite <- (append_nil_r s) at 1. apply contains_middle. Qed.

Lemma chars_sub_non_alnum s :
  Forall (λ c, safe_char c = true) (chars (Str.sub_non_alnum s)).
Proof.
  induction s as [|a s IH]; simpl; [constructor |].
  constructor; [| exact IH]. unfold safe_char.
  destruct (Str.is_upper a || Str.is_lower a || Str.is_digit a) eqn:E.
  - by rewrite E.
  - reflexivity.
Qed.

Lemma length_sub_non_alnum s :
  String.length (Str.sub_non_alnum s) = String.length s.
Proof. induction s as [|a s IH]; simpl; [done | by rewrite IH]. Qed.

Lemma sub_non_alnum_safe s :
  Forall (λ c, safe_char c = true) (chars s) → Str.sub_non_alnum s = s.
Proof.
  induction s as [|a s IH]; simpl; [done |].
  intros [Ha Hs]%Forall_cons. rewrite (IH Hs). f_equal.
  unfold safe_char in Ha.
  destruct (Str.is_upper a || Str.is_lower a || Str.is_digit a); [done |].
  simpl in Ha. by apply bool_decide_eq_true in Ha.
Qed.

Lemma plural_endpoint_ends_in_s o : ends_in (_plural_endpoint o) "s".
Proof.
  unfold _plural_endpoint.
  destruct (Str.endswith (Str.lower (_endpoint o)) "y").
  - exists (Str.drop_last (_endpoint o) +:+ "ie"). by rewrite append_assoc.
  - by exists (_endpoint o).
Qed.

Lemma plural_endpoint_longer o :
  String.length (_endpoint o) < String.length (_plural_endpoint o).
Proof.
  unfold _plural_endpoint.
  destruct (Str.endswith (Str.lower (_endpoint o)) "y") eqn:E.
  - apply lower_endswith_y in E as [[s' ->] | [s' ->]];
      rewrite drop_last_snoc, !length_append; simpl; lia.
  - rewrite length_append. simpl. lia.
Qed.

End MoreStringFacts.

(** X1.  The plural endpoint of a route always ends in [s] and is longer
    than its endpoint, so it is never accepted as the endpoint of a
    [Route]: the constructor raises the error about singular endpoints. *)
Theorem plural_endpoint_is_refused_as_endpoint
    (o : RouteObj) (route : string) (plural single : option pyclass)
    (children : option (list loc)) (single_type : string)
    (loader : option Loader) (w : World) :
  ends_in (_plural_endpoint o) "s"
  ∧ String.length (_endpoint o) < String.length (_plural_endpoint o)
  ∧ fst (Route_new (_plural_endpoint o) route plural single children
           single_type loader w)
    = Raise (ValueError ("Endpoints must be singular. Passed endpoint "
                         +:+ _plural_endpoint o +:+ " with route " +:+ route)).
Proof.
  split; [apply plural_endpoint_ends_in_s |].
  split; [apply plural_endpoint_longer |].
  rewrite Route_new_not_singular; [done |].
  apply lower_endswith_s. left. apply plural_endpoint_ends_in_s.
Qed.

(** X2.  The error about a plural endpoint quotes both the endpoint and
    the route the caller passed. *)
Theorem singular_error_quotes_endpoint_and_route
    (e route : string) (plural single : option pyclass)
    (children : option (list loc)) (single_type : string)
    (loader : option Loader) (w : World) :
  ends_in e "s" ∨ ends_in e "S" →
  ∃ msg,
    fst (Route_new e route plural single children single_type loader w)
    = Raise (ValueError msg)
    ∧ Str.contains msg e = true
    ∧ Str.contains msg route = true.
Proof.
  intros He%lower_endswith_s. rewrite Route_new_not_singular by done.
  eexists. split; [reflexivity |]. split.
  - apply contains_middle.
  - rewrite <- !append_assoc. apply contains_end.
Qed.

Lemma singular_error_quotes_endpoint_and_route_witness :
  ∃ msg,
    fst (Route_new "Address" "/addr" None None None "int" None empty_world)
    = Raise (ValueError msg)
    ∧ Str.contains msg "Address" = true
    ∧ Str.contains msg "/addr" = true.
Proof.
  apply (singular_error_quotes_endpoint_and_route "Address" "/addr" None None
           None "int" None empty_world).
  left. by exists "Addres".
Defined.

(** ** Construction *)

Lemma Route_new_Return endpoint route plural single children single_type
    loader w self w' :
  Route_new endpoint route plural single children single_type loader w
  = (Return self, w') →
  self = next_loc w
  ∧ ∃ l,
      w' = mkWorld
             (<[self := built endpoint route plural single children
                          single_type l]>
                (adopt self (default [] children) (routes w)))
             (apis w) (S self).
Proof.
  intros Hrun.
  destruct (Route_new_cases endpoint route plural single children single_type
              loader w) as (r & rs' & Heq & Hcases).
  rewrite Hrun in Heq. injection Heq as Hr Hw. subst r w'.
  destruct Hcases as [(e & [=] & _) | (l & [= ->] & ->)]. eauto.
Qed.

(** X3.  The [_safe_endpoint] of a route that was built has the length of
    the endpoint, consists of letters, digits and underscores only, is
    the endpoint itself when that already does, and is left as it is by
    a second substitution. *)
Theorem safe_endpoint_is_a_parameter_name
    (e route : string) (plural single : option pyclass)
    (children : option (list loc)) (single_type : string)
    (loader : option Loader) (w w' : World) (self : loc) :
  Route_new e route plural single children single_type loader w
  = (Return self, w') →
  ∃ o,
    routes w' !! self = Some o
    ∧ String.length (_safe_endpoint o) = String.length e
    ∧ Forall (λ c, safe_char c = true) (chars (_safe_endpoint o))
    ∧ (Forall (λ c, safe_char c = true) (chars e) → _safe_endpoint o = e)
    ∧ Str.sub_non_alnum (_safe_endpoint o) = _safe_endpoint o.
Proof.
  intros (-> & l & ->)%Route_new_Return. eexists. simpl.
  split; [apply lookup_insert_eq |]. simpl.
  split; [apply length_sub_non_alnum |].
  split; [apply chars_sub_non_alnum |].
  split; [apply sub_non_alnum_safe |].
  apply sub_non_alnum_safe, chars_sub_non_alnum.
Qed.

Lemma safe_endpoint_is_a_parameter_name_witness :
  ∃ o,
    routes (snd (Route_new "blog-post" "/posts" None None None "int" None
                   empty_world)) !! 0 = Some o
    ∧ String.length (_safe_endpoint o) = String.length "blog-post"
    ∧ Forall (λ c, safe_char c = true) (chars (_safe_endpoint o))
    ∧ (Forall (λ c, safe_char c = true) (chars "blog-post") →
       _safe_endpoint o = "blog-post")
    ∧ Str.sub_non_alnum (_safe_endpoint o) = _safe_endpoint o.
Proof.
  apply (safe_endpoint_is_a_parameter_name "blog-post" "/posts" None None None
           "int" None empty_world).
  reflexivity.
Defined.

(** X4.  A route handed as a child to two [Route]s in turn has the first
    as [_parent] after the first construction and the second after the
    second: the constructor overwrites the reference, the last one
    stays. *)
Theorem last_constructor_is_the_parent
    (e1 r1 e2 r2 : string) (pl1 si1 pl2 si2 : option pyclass)
    (ch1 ch2 : list loc) (st1 st2 : string) (lo1 lo2 : option Loader)
    (w w1 w2 : World) (a1 a2 c : loc) (oc : RouteObj) :
  allocated w →
  routes w !! c = Some oc →
  c ∈ ch1 → c ∈ ch2 →
  Route_new e1 r1 pl1 si1 (Some ch1) st1 lo1 w = (Return a1, w1) →
  Route_new e2 r2 pl2 si2 (Some ch2) st2 lo2 w1 = (Return a2, w2) →
  routes w1 !! c = Some (with_parent (Some a1) oc)
  ∧ routes w2 !! c = Some (with_parent (Some a2) oc)
  ∧ a1 ≠ a2.
Proof.
  intros [Halloc _] Hc Hc1 Hc2 (-> & l1 & ->)%Route_new_Return H2.
  apply Route_new_Return in H2 as (-> & l2 & ->). simpl in *.
  assert (c < next_loc w) as Hlt by (apply Halloc; eauto).
  assert (<[next_loc w := built e1 r1 pl1 si1 (Some ch1) st1 l1]>
            (adopt (next_loc w) ch1 (routes w)) !! c
          = Some (with_parent (Some (next_loc w)) oc)) as H1.
  { rewrite lookup_insert_ne by lia.
    rewrite adopt_lookup, bool_decide_eq_true_2 by done. by rewrite Hc. }
  split; [exact H1 |]. split; [| lia].
  rewrite lookup_insert_ne by lia.
  rewrite adopt_lookup, bool_decide_eq_true_2 by done. by rewrite H1.
Qed.

Lemma last_constructor_is_the_parent_witness :
  let w := snd (Route_new "post" "/posts" None None None "int" None
                  empty_world) in
  let w1 := snd (Route_new "user" "/users" None None (Some [0]) "int" None w) in
  let w2 := snd (Route_new "group" "/groups" None None (Some [0]) "int" None
                   w1) in
  routes w1 !! 0
  = Some (with_parent (Some 1)
            (built "post" "/posts" None None None "int" None))
  ∧ routes w2 !! 0
    = Some (with_parent (Some 2)
              (built "post" "/posts" None None None "int" None))
  ∧ 1 ≠ 2.
Proof.
  intros w w1 w2.
  apply (last_constructor_is_the_parent "user" "/users" "group" "/groups"
           None None None None [0] [0] "int" "int" None None w w1 w2 1 2 0
           (built "post" "/posts" None None None "int" None)).
  - apply (Route_new_wf "post" "/posts" None None None "int" None empty_world
             empty_world_wf).
    by intros c ?%elem_of_nil.
  - reflexivity.
  - by left.
  - by left.
  - reflexivity.
  - reflexivity.
Defined.

(** X5.  The two checks of the constructor act at different moments.  A
    plural endpoint is refused before anything is written: no route in
    the store changes.  Two loader sources are refused after the children
    were adopted: each child's [_parent] already refers to the instance
    whose construction fails. *)
Theorem failed_construction_effects
    (e route : string) (plural single : option pyclass)
    (children : option (list loc)) (single_type : string)
    (loader : option Loader) (w : World) :
  let run :=
    Route_new e route plural single children single_type loader w in
  (Str.endswith (Str.lower e) "s" = true → routes (snd run) = routes w)
  ∧ (∀ l c oc,
       Str.endswith (Str.lower e) "s" = false →
       hasattr_restful_loader single = true →
       loader = Some l →
       c ∈ default [] children →
       routes w !! c = Some oc →
       (∃ msg, fst run = Raise (ValueError msg))
       ∧ routes (snd run) !! c = Some (with_parent (Some (next_loc w)) oc)).
Proof.
  intros run. subst run. split.
  - intros He. by rewrite Route_new_not_singular.
  - intros l c oc He Hs -> Hc Hoc.
    rewrite (Route_new_two_loaders _ _ _ _ _ _ _ _ l) by done.
    split; [by eexists |]. simpl.
    rewrite adopt_lookup, bool_decide_eq_true_2 by done. by rewrite Hoc.
Qed.

(** ** Registration *)

Lemma under_own E P url_rest name_rest cls :
  under E P (mkReg cls (P +:+ url_rest) (E +:+ name_rest)).
Proof. split; apply startswith_append. Qed.

Lemma under_deeper E P E' P' reg :
  under (E +:+ E') (P +:+ P') reg → under E P reg.
Proof. intros [H1 H2]. split; by eapply startswith_trans. Qed.

(** What the plural block appends: nothing, or one registration at the
    base path under the plural name. *)
Lemma register_plural_shape rs o name base :
  ∃ r regs,
    appends (λ api, register_plural o api name base) rs r regs
    ∧ length regs ≤ 1
    ∧ Forall (λ reg, reg_url reg = base ∧ reg_endpoint reg = name) regs
    ∧ (_plural o = None → r = Return () ∧ regs = [])
    ∧ ((∀ p, _parent o = Some p → is_Some (rs !! p)) →
       r = Return () ∧ (is_Some (_plural o) → length regs = 1)).
Proof.
  unfold register_plural. destruct (_plural o) as [plural|].
  - destruct (_parent o) as [parent|].
    + destruct (rs !! parent) as [p|] eqn:Hp.
      * exists (Return ()),
          [mkReg (match _loader p with
                  | Some l => set___name__ (wrapped_cls plural l) name
                  | None => plural
                  end) base name].
        split; [| split; [simpl; lia | split; [by repeat constructor |]]].
        { intros api a n. rewrite bind_unfold, bind_unfold.
          unfold deref_proxy. simpl. rewrite Hp. by destruct (_loader p). }
        split; [done | done].
      * exists (Raise (ReferenceError
                         "weakly-referenced object no longer exists")), [].
        split; [| split; [simpl; lia | split; [constructor |]]].
        { intros api a n. rewrite bind_unfold, bind_unfold.
          unfold deref_proxy. simpl. by rewrite Hp, record_nil. }
        split; [done |]. intros Hlive.
        destruct (Hlive parent eq_refl) as [? ?]. congruence.
    + exists (Return ()), [mkReg plural base name].
      split; [| split; [simpl; lia | split; [by repeat constructor |]]].
      { intros api a n. by rewrite bind_unfold. }
      split; [done | done].
  - exists (Return ()), []. split; [apply appends_ret |].
    split; [simpl; lia |]. split; [constructor |].
    split; [done |]. split; [done |]. by intros [? ?].
Qed.

(** What the single block appends. *)
Lemma register_single_shape rs o name path :
  appends (λ api, register_single o api name path) rs (Return ())
    (match _single o with
     | Some single =>
         [mkReg (match _loader o with
                 | Some l => Wrapped single l name
                 | None => single
                 end) path name]
     | None => []
     end).
Proof.
  unfold register_single. destruct (_single o) as [single|].
  - destruct (_loader o); apply appends_add_resource.
  - apply appends_ret.
Qed.

Lemma appends_for_each_Forall rs (Q : Registration → Prop) {A}
    (body : loc → A → M unit) (xs : list A) :
  (∀ x, x ∈ xs →
     ∃ r regs, appends (λ api, body api x) rs r regs ∧ Forall Q regs) →
  ∃ r regs, appends (λ api, for_each xs (body api)) rs r regs ∧ Forall Q regs.
Proof.
  induction xs as [|x xs IH]; intros Hbody.
  - eexists _, _. split; [apply appends_ret | constructor].
  - destruct (Hbody x) as (r1 & regs1 & H1 & Q1); [by left |].
    destruct IH as (r2 & regs2 & H2 & Q2).
    { intros y Hy. apply Hbody. by right. }
    eexists _, _. split; [by apply (appends_seq _ _ _ _ _ _ _ H1 H2) |].
    destruct r1; [by apply Forall_app | done..].
Qed.

Lemma appends_Route_register_routes_under rs fuel self E P :
  ∃ r regs,
    appends (λ api, Route_register_routes fuel self api E P) rs r regs
    ∧ Forall (under E P) regs.
Proof.
  revert self E P. induction fuel as [|fuel IH]; intros self E P.
  - exists OutOfFuel, []. split; [| constructor].
    intros api a n. simpl. unfold out_of_fuel. by rewrite record_nil.
  - destruct (rs !! self) as [o|] eqn:Ho.
    + destruct (register_plural_shape rs o (E +:+ _plural_endpoint o)
                  (P +:+ _route o)) as (r1 & regs1 & H1 & _ & Q1 & _).
      pose proof (register_single_shape rs o (E +:+ _endpoint o)
                    ((P +:+ _route o) +:+ "/<" +:+ _single_type o +:+ ":"
                       +:+ _safe_endpoint o +:+ "_id>")) as H2.
      destruct (appends_for_each_Forall rs (under E P)
                  (λ api child,
                     Route_register_routes fuel child api
                       ((E +:+ _plural_endpoint o) +:+ "-")
                       ((P +:+ _route o) +:+ "/<" +:+ _single_type o
                          +:+ ":" +:+ _safe_endpoint o +:+ "_id>"))
                  (_children o)) as (r3 & regs3 & H3 & Q3).
      { intros child _.
        destruct (IH child ((E +:+ _plural_endpoint o) +:+ "-")
                    ((P +:+ _route o) +:+ "/<" +:+ _single_type o
                       +:+ ":" +:+ _safe_endpoint o +:+ "_id>"))
          as (r & regs & H & Q).
        exists r, regs. split; [done |].
        eapply Forall_impl; [exact Q |]. intros reg.
        rewrite !append_assoc. apply under_deeper. }
      pose proof (appends_seq _ _ _ _ _ _ _ H1
                    (appends_seq _ _ _ _ _ _ _ H2 H3)) as H.
      eexists _, _. split.
      * intros api a n. rewrite <- (H api a n). simpl.
        rewrite bind_unfold. unfold deref at 1. simpl. by rewrite Ho.
      * assert (Forall (under E P) regs1) as Q1'.
        { eapply Forall_impl; [exact Q1 |]. intros [cls url ep] [Hu He].
          simpl in *. subst. apply under_own. }
        assert (Forall (under E P)
                  (match _single o with
                   | Some single =>
                       [mkReg (match _loader o with
                               | Some l => Wrapped single l (E +:+ _endpoint o)
                               | None => single
                               end)
                          ((P +:+ _route o) +:+ "/<" +:+ _single_type o
                             +:+ ":" +:+ _safe_endpoint o +:+ "_id>")
                          (E +:+ _endpoint o)]
                   | None => []
                   end)) as Q2.
        { destruct (_single o); [| constructor].
          repeat constructor; simpl.
          - rewrite append_assoc. apply startswith_append.
          - apply startswith_append. }
        destruct r1; [| done..]. apply Forall_app. split; [done |].
        by apply Forall_app.
    + exists (NoSuchObject self), []. split; [| constructor].
      intros api a n. simpl. rewrite bind_unfold. unfold deref. simpl.
      by rewrite Ho, record_nil.
Qed.

(** X6.  Whatever [register_routes] adds for a route, with the prefixes
    [E] and [P], is added behind what the api already had, has a url that
    starts with [P] and an endpoint name that starts with [E]; no other
    api is touched. *)
Theorem registrations_stay_under_prefixes
    (fuel : nat) (self api : loc) (E P : string) (w : World)
    (old : list Registration) :
  apis w !! api = Some old →
  let w' := snd (Route_register_routes fuel self api E P w) in
  ∃ regs,
    resources api w' = old ++ regs
    ∧ Forall (under E P) regs
    ∧ ∀ api', api' ≠ api → apis w' !! api' = apis w !! api'.
Proof.
  intros Hold w'. subst w'.
  destruct (appends_Route_register_routes_under (routes w) fuel self E P)
    as (r & regs & H & Q).
  specialize (H api (apis w) (next_loc w)). cbv beta in H.
  rewrite world_eta in H. rewrite H. simpl.
  exists regs. split; [| split; [done |]].
  - unfold resources. simpl. by rewrite (record_lookup _ _ _ old Hold).
  - intros api' Hne. by apply record_lookup_ne.
Qed.

Lemma registrations_stay_under_prefixes_witness :
  let w' := snd (Route_register_routes 2 1 3 "orgs-" "/orgs/<int:org_id>"
                   org_world) in
  ∃ regs,
    resources 3 w' = [] ++ regs
    ∧ Forall (under "orgs-" "/orgs/<int:org_id>") regs
    ∧ ∀ api', api' ≠ 3 → apis w' !! api' = apis org_world !! api'.
Proof.
  apply (registrations_stay_under_prefixes 2 1 3 "orgs-" "/orgs/<int:org_id>"
           org_world []).
  reflexivity.
Defined.

(** The registrations of a route begin with those of its plural block
    and of its single block, when the plural block returns. *)
Lemma Route_register_routes_own fuel self api E P w o old regs1 :
  routes w !! self = Some o →
  apis w !! api = Some old →
  appends (λ api, register_plural o api (E +:+ _plural_endpoint o)
                    (P +:+ _route o)) (routes w) (Return ()) regs1 →
  ∃ rest,
    resources api (snd (Route_register_routes (S fuel) self api E P w))
    = old ++ regs1
        ++ match _single o with
           | Some single =>
               [mkReg (match _loader o with
                       | Some l => Wrapped single l (E +:+ _endpoint o)
                       | None => single
                       end)
                  ((P +:+ _route o) +:+ "/<" +:+ _single_type o +:+ ":"
                     +:+ _safe_endpoint o +:+ "_id>")
                  (E +:+ _endpoint o)]
           | None => []
           end
        ++ rest.
Proof.
  intros Ho Hold H1.
  pose proof (register_single_shape (routes w) o (E +:+ _endpoint o)
                ((P +:+ _route o) +:+ "/<" +:+ _single_type o +:+ ":"
                   +:+ _safe_endpoint o +:+ "_id>")) as H2.
  destruct (appends_for_each (routes w)
              (λ api child,
                 Route_register_routes fuel child api
                   ((E +:+ _plural_endpoint o) +:+ "-")
                   ((P +:+ _route o) +:+ "/<" +:+ _single_type o
                      +:+ ":" +:+ _safe_endpoint o +:+ "_id>"))
              (_children o)) as (r3 & regs3 & H3).
  { intros child _. apply appends_Route_register_routes. }
  pose proof (appends_seq _ _ _ _ _ _ _ H1 (appends_seq _ _ _ _ _ _ _ H2 H3))
    as H.
  specialize (H api (apis w) (next_loc w)). cbv beta iota in H.
  rewrite world_eta in H.
  rewrite (Route_register_routes_S fuel self api E P w o Ho), H.
  unfold resources. simpl. rewrite (record_lookup _ _ _ old Hold). simpl.
  eauto.
Qed.

(** X7.  The single class of a route is registered at the single path
    under the single name, wrapped with the route's own loader when it
    has one and as it is otherwise, whatever the loader of its parent;
    before it comes at most the registration of the plural class. *)
Theorem single_is_wrapped_with_own_loader
    (fuel : nat) (self api : loc) (E P : string) (w : World)
    (o : RouteObj) (single : pyclass) (old : list Registration) :
  routes w !! self = Some o →
  _single o = Some single →
  apis w !! api = Some old →
  (is_Some (_plural o) → ∀ p, _parent o = Some p → is_Some (routes w !! p)) →
  let registered := resources api
    (snd (Route_register_routes (S fuel) self api E P w)) in
  let url := (P +:+ _route o) +:+ "/<" +:+ _single_type o +:+ ":"
               +:+ _safe_endpoint o +:+ "_id>" in
  let name := E +:+ _endpoint o in
  let cls := match _loader o with
             | Some l => Wrapped single l name
             | None => single
             end in
  ∃ before rest,
    registered = old ++ before ++ mkReg cls url name :: rest
    ∧ length before ≤ 1
    ∧ Forall (λ reg, reg_url reg = P +:+ _route o) before
    ∧ (_plural o = None → before = []).
Proof.
  intros Ho Hsi Hold Hparent registered url name cls.
  subst registered url name cls.
  destruct (register_plural_shape (routes w) o (E +:+ _plural_endpoint o)
              (P +:+ _route o)) as (r1 & regs1 & H1 & Hlen & Q1 & Hnone & Hlive).
  assert (r1 = Return ()) as ->.
  { destruct (_plural o) as [pl|] eqn:Hpl.
    - apply Hlive. apply Hparent. eauto.
    - by apply Hnone. }
  destruct (Route_register_routes_own fuel self api E P w o old regs1 Ho Hold
              H1) as (rest & ->).
  rewrite Hsi. exists regs1, rest. split; [done |]. split; [done |].
  split.
  - eapply Forall_impl; [exact Q1 |]. by intros reg [? _].
  - intros Hpl. by apply Hnone.
Qed.

Lemma single_is_wrapped_with_own_loader_witness :
  ∃ before rest,
    resources 2 (snd (Route_register_routes 1 0 2 "shops-"
                        "/shops/<int:shop_id>" shop_world))
    = [] ++ before
         ++ mkReg (Wrapped (plain "Item") by_id "shops-item")
                  "/shops/<int:shop_id>/items/<int:item_id>" "shops-item"
         :: rest
    ∧ length before ≤ 1
    ∧ Forall (λ reg, reg_url reg = "/shops/<int:shop_id>/items") before
    ∧ (Some (plain "Items") = None → before = []).
Proof.
  apply (single_is_wrapped_with_own_loader 0 0 2 "shops-"
           "/shops/<int:shop_id>" shop_world
           (with_parent (Some 1)
              (built "item" "/items" (Some (plain "Items"))
                 (Some (plain "Item")) None "int" (Some by_id)))
           (plain "Item") [] eq_refl eq_refl eq_refl).
  intros _ p [= <-]. by eexists.
Defined.

Lemma single_path_differs (base st safe : string) :
  base ≠ base +:+ "/<" +:+ st +:+ ":" +:+ safe +:+ "_id>".
Proof.
  intros H%(f_equal String.length). rewrite length_append in H.
  simpl in H. lia.
Qed.

Lemma names_differ E o : E +:+ _plural_endpoint o ≠ E +:+ _endpoint o.
Proof.
  intros H%(f_equal String.length). rewrite !length_append in H.
  pose proof (plural_endpoint_longer o). lia.
Qed.

(** X8.  A route with both classes, whose parent reference is absent or
    live, registers first the plural and then the single class, and the
    two registrations differ both in url and in endpoint name. *)
Theorem own_registrations_are_distinct
    (fuel : nat) (self api : loc) (E P : string) (w : World)
    (o : RouteObj) (old : list Registration) :
  routes w !! self = Some o →
  is_Some (_plural o) →
  is_Some (_single o) →
  apis w !! api = Some old →
  (∀ p, _parent o = Some p → is_Some (routes w !! p)) →
  ∃ r1 r2 rest,
    resources api (snd (Route_register_routes (S fuel) self api E P w))
    = old ++ r1 :: r2 :: rest
    ∧ reg_url r1 = P +:+ _route o
    ∧ reg_endpoint r1 = E +:+ _plural_endpoint o
    ∧ reg_endpoint r2 = E +:+ _endpoint o
    ∧ reg_url r1 ≠ reg_url r2
    ∧ reg_endpoint r1 ≠ reg_endpoint r2.
Proof.
  intros Ho Hpl [single Hsi] Hold Hparent.
  destruct (register_plural_shape (routes w) o (E +:+ _plural_endpoint o)
              (P +:+ _route o)) as (r1 & regs1 & H1 & _ & Q1 & _ & Hlive).
  destruct (Hlive Hparent) as [-> Hlen]. specialize (Hlen Hpl).
  destruct regs1 as [|reg1 [|? ?]]; [done | | done].
  apply Forall_cons in Q1 as [[Hurl Hname] _].
  destruct (Route_register_routes_own fuel self api E P w o old [reg1] Ho Hold
              H1) as (rest & ->).
  rewrite Hsi. eexists reg1, _, rest. split; [reflexivity |]. simpl.
  rewrite Hurl, Hname. repeat split.
  - apply single_path_differs.
  - apply names_differ.
Qed.

Lemma own_registrations_are_distinct_witness :
  ∃ r1 r2 rest,
    resources 2 (snd (Route_register_routes 2 1 2 EmptyString EmptyString
                        shop_world))
    = [] ++ r1 :: r2 :: rest
    ∧ reg_url r1 = "/shops"
    ∧ reg_endpoint r1 = "shops"
    ∧ reg_endpoint r2 = "shop"
    ∧ reg_url r1 ≠ reg_url r2
    ∧ reg_endpoint r1 ≠ reg_endpoint r2.
Proof.
  apply (own_registrations_are_distinct 1 1 2 EmptyString EmptyString
           shop_world
           (built "shop" "/shops" (Some (plain "Shops")) (Some (plain "Shop"))
              (Some [0]) "int" None) [] eq_refl).
  - by eexists.
  - by eexists.
  - reflexivity.
  - by intros p [=].
Defined.

(** ** Registration comes to an end *)

Lemma constructed_wf w : constructed w → wf_world w.
Proof.
  induction 1 as [| ? ? ? ? ? ? ? w _ IH Hch | w _ IH].
  - apply empty_world_wf.
  - by apply Route_new_wf.
  - by apply Api_new_wf.
Qed.

Section Finishes.

Variable rs : gmap loc RouteObj.
Hypothesis Hwf : wf_routes rs.

Lemma appends_seq_finished m1 m2 r1 regs1 r2 regs2 :
  appends m1 rs r1 regs1 → finished r1 →
  appends m2 rs r2 regs2 → finished r2 →
  ∃ r regs, appends (λ api, m1 api ;; m2 api) rs r regs ∧ finished r.
Proof.
  intros H1 F1 H2 F2. eexists _, _.
  split; [apply (appends_seq _ _ _ _ _ _ _ H1 H2) |].
  destruct F1 as [-> | [msg ->]]; [done | right; eauto].
Qed.

Lemma register_plural_finishes o name base :
  ∃ r regs,
    appends (λ api, register_plural o api name base) rs r regs ∧ finished r.
Proof.
  unfold register_plural. destruct (_plural o) as [plural|].
  - destruct (_parent o) as [parent|].
    + destruct (rs !! parent) as [p|] eqn:Hp.
      * destruct (_loader p) as [l|] eqn:Hl; eexists _, _;
          (split; [| by left]); intros api a n;
          rewrite bind_unfold, bind_unfold; unfold deref_proxy; simpl;
          rewrite Hp, Hl; reflexivity.
      * exists (Raise (ReferenceError
                         "weakly-referenced object no longer exists")), [].
        split; [| right; eauto]. intros api a n.
        rewrite bind_unfold, bind_unfold; unfold deref_proxy; simpl.
        by rewrite Hp, record_nil.
    + eexists _, _. split; [| by left].
      intros api a n. rewrite bind_unfold. reflexivity.
  - eexists _, _. split; [apply appends_ret | by left].
Qed.

Lemma for_each_finishes {A} (body : loc → A → M unit) (xs : list A) :
  (∀ x, x ∈ xs →
     ∃ r regs, appends (λ api, body api x) rs r regs ∧ finished r) →
  ∃ r regs, appends (λ api, for_each xs (body api)) rs r regs ∧ finished r.
Proof.
  induction xs as [|x xs IH]; intros Hbody.
  - eexists _, _. split; [apply appends_ret | by left].
  - destruct (Hbody x) as (r1 & regs1 & H1 & F1); [by left |].
    destruct IH as (r2 & regs2 & H2 & F2).
    { intros y Hy. apply Hbody. by right. }
    simpl. by eapply appends_seq_finished.
Qed.

Lemma Route_register_routes_finishes fuel self endpoint route :
  is_Some (rs !! self) → self < fuel →
  ∃ r regs,
    appends (λ api, Route_register_routes fuel self api endpoint route) rs
            r regs
    ∧ finished r.
Proof.
  revert self endpoint route.
  induction fuel as [|fuel IH]; intros self endpoint route [o Ho] Hlt; [lia |].
  destruct (register_plural_finishes o (endpoint +:+ _plural_endpoint o)
              (route +:+ _route o)) as (r1 & regs1 & H1 & F1).
  pose proof (register_single_shape rs o (endpoint +:+ _endpoint o)
                ((route +:+ _route o) +:+ "/<" +:+ _single_type o +:+ ":"
                   +:+ _safe_endpoint o +:+ "_id>")) as H2.
  destruct (for_each_finishes
              (λ api child,
                 Route_register_routes fuel child api
                   ((endpoint +:+ _plural_endpoint o) +:+ "-")
                   ((route +:+ _route o) +:+ "/<" +:+ _single_type o
                      +:+ ":" +:+ _safe_endpoint o +:+ "_id>"))
              (_children o)) as (r3 & regs3 & H3 & F3).
  { intros child Hchild. destruct (Hwf _ _ Ho _ Hchild) as [Hc Hsome].
    apply IH; [done | lia]. }
  destruct (appends_seq_finished _ _ _ _ _ _ H2 (or_introl eq_refl) H3 F3)
    as (r23 & regs23 & H23 & F23).
  destruct (appends_seq_finished _ _ _ _ _ _ H1 F1 H23 F23)
    as (r & regs & H & F).
  exists r, regs. split; [| done]. intros api a n.
  rewrite <- (H api a n). simpl. rewrite bind_unfold. unfold deref at 1.
  simpl. by rewrite Ho.
Qed.

End Finishes.

Lemma shop_world_constructed : constructed shop_world.
Proof.
  change shop_world
    with (snd (Api_new
                 (snd (Route_new "shop" "/shops" (Some (plain "Shops"))
                         (Some (plain "Shop")) (Some [0]) default_single_type
                         None
                         (snd (Route_new "item" "/items"
                                 (Some (plain "Items")) (Some (plain "Item"))
                                 None default_single_type (Some by_id)
                                 empty_world)))))).
  apply constructed_Api, constructed_Route;
    [apply constructed_Route; [apply constructed_empty |] |].
  - by intros c ?%elem_of_nil.
  - intros c ->%list_elem_of_singleton. by eexists.
Qed.

(** ** More on the wrapped [dispatch_request] *)

(** X10.  A tuple returned by the loader replaces all the arguments: its
    items are the positional arguments of the wrapped class, and the
    keywords of the request are dropped. *)
Theorem tuple_result_replaces_the_arguments
    (cls : pyclass) (loader : Loader) (name : string)
    (args : list pyval) (kw : kwargs) (log : CallLog) (items : list pyval) :
  loader args kw = Returned (VTuple items) →
  dispatch_request (Wrapped cls loader name) args kw log
  = dispatch_request cls items [] log.
Proof. intros H. simpl. by rewrite H. Qed.

Lemma tuple_result_replaces_the_arguments_witness :
  let inner := Resource "Post" (λ _ _, Returned VNone) None in
  let loader : Loader := λ _ kw, Returned (VTuple (snd <$> kw)) in
  dispatch_request (wrapped_cls inner loader) []
    [("user_id", VInt 3); ("post_id", VInt 8)] []
  = (Returned VNone, [("Post", [VInt 3; VInt 8], [])]).
Proof.
  intros inner loader.
  apply (tuple_result_replaces_the_arguments inner loader "Wrapped" []
           [("user_id", VInt 3); ("post_id", VInt 8)] []
           [VInt 3; VInt 8]).
  reflexivity.
Defined.

(** X11.  The three tests are on the exact type.  A result of any other
    type, be it [None], a number, a string, an instance of a class
    derived from [dict] or even from [LoaderResponse], is passed to the
    wrapped class as its only positional argument, without keywords. *)
Theorem other_result_is_sole_argument
    (cls : pyclass) (loader : Loader) (name : string)
    (args : list pyval) (kw : kwargs) (log : CallLog) (v : pyval) :
  loader args kw = Returned v →
  type_of v ≠ TLoaderResponse →
  type_of v ≠ TTuple →
  type_of v ≠ TDict →
  dispatch_request (Wrapped cls loader name) args kw log
  = dispatch_request cls [v] [] log.
Proof. intros H ? ? ?. simpl. rewrite H. by destruct v. Qed.

Lemma other_result_is_sole_argument_witness :
  let inner := Resource "User" (λ _ _, Returned VNone) None in
  let gone :=
    VInstance "NotFound" TLoaderResponse
      (VLoaderResponse (VStr "not found") (VInt 404)) in
  dispatch_request (wrapped_cls inner (λ _ _, Returned gone)) []
    [("user_id", VInt 3)] []
  = (Returned VNone, [("User", [gone], [])])
  ∧ dispatch_request (wrapped_cls inner (λ _ _, Returned VNone)) []
      [("user_id", VInt 3)] []
    = (Returned VNone, [("User", [VNone], [])]).
Proof.
  intros inner gone. split.
  - apply (other_result_is_sole_argument inner (λ _ _, Returned gone)
             "Wrapped" [] [("user_id", VInt 3)] [] gone);
      [reflexivity | discriminate..].
  - apply (other_result_is_sole_argument inner (λ _ _, Returned VNone)
             "Wrapped" [] [("user_id", VInt 3)] [] VNone);
      [reflexivity | discriminate..].
Defined.

(** X12.  However many wrappers surround it, one request calls the
    class of the application at most once, and what was logged before
    stays; an unwrapped class is called exactly once with the arguments
    of the request. *)
Theorem one_request_calls_the_class_at_most_once
    (c : pyclass) (args : list pyval) (kw : kwargs) (log : CallLog) :
  (∃ new,
     snd (dispatch_request c args kw log) = log ++ new
     ∧ length new ≤ 1
     ∧ Forall (λ call, call.1.1 = innermost c) new)
  ∧ (∀ name d rl, c = Resource name d rl →
       dispatch_request c args kw log
       = (d args kw, log ++ [(name, args, kw)])).
Proof.
  split; [| by intros name d rl ->].
  revert args kw. induction c as [name d rl | cls IH loader name];
    intros args kw.
  - exists [(name, args, kw)]. simpl. repeat split; [lia |].
    by repeat constructor.
  - assert (∃ new, log = log ++ new ∧ length new ≤ 1
                   ∧ Forall (λ call, call.1.1 = innermost cls) new) as Hnone.
    { exists []. rewrite app_nil_r. repeat split; [simpl; lia | constructor]. }
    simpl. destruct (loader args kw) as [v | e]; [| exact Hnone].
    destruct v; try apply IH; try exact Hnone.
    destruct (as_keywords items); [apply IH | exact Hnone].
Qed.

(** ** From the constructor to the request *)

(** X13.  A route whose single class brings its own [restful_loader],
    built without children, plural class or explicit loader and then
    registered, gives the api one resource: that class wrapped with its
    [restful_loader].  A request to it is answered by the class on the
    items the loader returns. *)
Theorem restful_loader_serves_its_class
    (e route single_type cname E P : string)
    (d : list pyval → kwargs → outcome) (rl : Loader)
    (fuel : nat) (api : loc) (w : World) :
  Str.endswith (Str.lower e) "s" = false →
  apis w !! api = Some [] →
  let single := Resource cname d (Some rl) in
  let build := Route_new e route None (Some single) None single_type None w in
  let registered :=
    snd (Route_register_routes (S fuel) (next_loc w) api E P (snd build)) in
  let served := Wrapped single rl (E +:+ e) in
  fst build = Return (next_loc w)
  ∧ resources api registered
    = [mkReg served
         ((P +:+ route) +:+ "/<" +:+ single_type +:+ ":"
            +:+ Str.sub_non_alnum e +:+ "_id>")
         (E +:+ e)]
  ∧ ∀ args kw log items,
      rl args kw = Returned (VTuple items) →
      dispatch_request served args kw log
      = (d items [], log ++ [(cname, items, [])]).
Proof.
  intros He Hapi single build registered served.
  subst build registered served.
  rewrite Route_new_restful_loader by done. cbn [fst snd].
  split; [done |]. split.
  - erewrite Route_register_routes_S; [| apply lookup_insert_eq].
    unfold resources. simpl. by rewrite lookup_alter_eq, Hapi.
  - intros args kw log items Hrl. simpl. by rewrite Hrl.
Qed.

Lemma restful_loader_serves_its_class_witness :
  let w := snd (Api_new empty_world) in
  let single :=
    Resource "User" (λ args _, Returned (VTuple args)) (Some by_id) in
  resources 0
    (snd (Route_register_routes 1 1 0 EmptyString EmptyString
            (snd (Route_new "user" "/users" None (Some single) None "int"
                    None w))))
  = [mkReg (Wrapped single by_id "user") "/users/<int:user_id>" "user"].
Proof.
  intros w single.
  apply (restful_loader_serves_its_class "user" "/users" "int" "User"
           EmptyString EmptyString (λ args _, Returned (VTuple args)) by_id
           0 0 w eq_refl eq_refl).
Defined.

(** ** What the constructor leaves alone *)

(** X14.  Whether it returns or raises, [Route( ...)] touches no api and
    changes nothing of the routes that exist but the [_parent] of routes
    among its children. *)
Theorem constructor_only_adopts
    (e route : string) (plural single : option pyclass)
    (children : option (list loc)) (single_type : string)
    (loader : option Loader) (w : World) :
  let w' :=
    snd (Route_new e route plural single children single_type loader w) in
  apis w' = apis w
  ∧ ∀ l o, routes w !! l = Some o → l ≠ next_loc w →
      ∃ o', routes w' !! l = Some o'
            ∧ with_parent None o' = with_parent None o
            ∧ (l ∉ default [] children → o' = o).
Proof.
  intros w'. subst w'.
  destruct (Route_new_cases e route plural single children single_type
              loader w) as (r & rs' & -> & Hcases).
  simpl. split; [done |]. intros l o Hl Hne.
  assert (∃ o', adopt (next_loc w) (default [] children) (routes w) !! l
                = Some o'
                ∧ with_parent None o' = with_parent None o
                ∧ (l ∉ default [] children → o' = o)) as Hadopt.
  { rewrite adopt_lookup, Hl. case_bool_decide; eauto.
    eexists. split; [reflexivity |]. split; [done | done]. }
  destruct Hcases as [(ex & _ & [-> | ->]) | (ld & _ & ->)].
  - eauto.
  - exact Hadopt.
  - by rewrite lookup_insert_ne.
Qed.

(** ** What the api receives from a route and its children *)

Lemma for_each_per_child rs {A} (body : loc → A → M unit) (xs : list A) :
  (∀ x, x ∈ xs → ∃ regs, appends (λ api, body api x) rs (Return ()) regs) →
  ∃ per,
    Forall2 (λ x regs, appends (λ api, body api x) rs (Return ()) regs) xs per
    ∧ appends (λ api, for_each xs (body api)) rs (Return ()) (concat per).
Proof.
  induction xs as [|x xs IH]; intros Hbody.
  - exists []. split; [constructor | apply appends_ret].
  - destruct (Hbody x) as (regs1 & H1); [by left |].
    destruct IH as (per & Hper & H2).
    { intros y Hy. apply Hbody. by right. }
    exists (regs1 :: per). split; [by constructor |].
    simpl. apply (appends_seq _ _ _ _ _ _ _ H1 H2).
Qed.

Lemma appends_resources m rs r regs api w old :
  appends m rs r regs → routes w = rs → apis w !! api = Some old →
  fst (m api w) = r ∧ resources api (snd (m api w)) = old ++ regs.
Proof.
  intros H <- Hold. specialize (H api (apis w) (next_loc w)).
  rewrite world_eta in H. rewrite H. unfold resources. simpl.
  by rewrite (record_lookup _ _ _ old Hold).
Qed.

(** C3.  On a well-formed store with live parents, what the api receives
    from a route registered with the prefixes [E] and [P] is: the
    registrations of its own classes, one for each class it has, and
    then, for each child in order, exactly what registering that child
    with the endpoint prefix [E + plural endpoint + '-'] and the path
    prefix [P + route + '/<single_type:safe_endpoint_id>'] hands to the
    api.  A route with neither class contributes nothing of its own and
    its children are registered all the same. *)
Theorem children_are_registered_under_single_path
    (fuel : nat) (self api : loc) (E P : string) (w : World) (o : RouteObj)
    (old : list Registration) :
  wf_routes (routes w) →
  parents_live (routes w) →
  routes w !! self = Some o →
  self ≤ fuel →
  apis w !! api = Some old →
  let E' := (E +:+ _plural_endpoint o) +:+ "-" in
  let P' := (P +:+ _route o) +:+ "/<" +:+ _single_type o +:+ ":"
              +:+ _safe_endpoint o +:+ "_id>" in
  ∃ own per_child,
    resources api (snd (Route_register_routes (S fuel) self api E P w))
    = old ++ own ++ concat per_child
    ∧ length own
      = match _plural o with Some _ => 1 | None => 0 end
        + match _single o with Some _ => 1 | None => 0 end
    ∧ Forall2
        (λ child regs,
           resources api (snd (Route_register_routes fuel child api E' P' w))
           = old ++ regs)
        (_children o) per_child.
Proof.
  intros Hwf Hlive Ho Hfuel Hold E' P'. subst E' P'.
  destruct (register_plural_shape (routes w) o (E +:+ _plural_endpoint o)
              (P +:+ _route o)) as (r1 & regs1 & H1 & Hlen & _ & Hnone & Hsome).
  destruct Hsome as [-> Hone]; [by intros p Hp; eapply Hlive |].
  pose proof (register_single_shape (routes w) o (E +:+ _endpoint o)
                ((P +:+ _route o) +:+ "/<" +:+ _single_type o +:+ ":"
                   +:+ _safe_endpoint o +:+ "_id>")) as H2.
  destruct (for_each_per_child (routes w)
              (λ api child,
                 Route_register_routes fuel child api
                   ((E +:+ _plural_endpoint o) +:+ "-")
                   ((P +:+ _route o) +:+ "/<" +:+ _single_type o +:+ ":"
                      +:+ _safe_endpoint o +:+ "_id>"))
              (_children o)) as (per & Hper & H3).
  { intros child Hchild. destruct (Hwf _ _ Ho _ Hchild) as [Hlt Hex].
    apply Route_register_routes_returns; [done | done | done | lia]. }
  pose proof (appends_seq _ _ _ _ _ _ _ H1 (appends_seq _ _ _ _ _ _ _ H2 H3))
    as H. cbv beta iota in H.
  match type of H2 with
  | appends _ _ _ ?single_regs => exists (regs1 ++ single_regs), per
  end.
  split; [| split].
  - rewrite (Route_register_routes_S fuel self api E P w o Ho).
    destruct (appends_resources _ _ _ _ api w old H eq_refl Hold) as [_ ->].
    by rewrite <- (app_assoc regs1).
  - rewrite length_app. f_equal.
    + destruct (_plural o) as [pl|]; [by apply Hone |].
      by destruct (Hnone eq_refl) as [_ ->].
    + by destruct (_single o).
  - eapply Forall2_impl; [exact Hper |]. intros child regs Hchild.
    by destruct (appends_resources _ _ _ _ api w old Hchild eq_refl Hold).
Qed.

Lemma mall_world_wf : wf_routes (routes mall_world).
Proof.
  apply wf_routes_check. apply (bool_decide_unpack _). vm_compute. exact I.
Qed.

Lemma mall_world_parents_live : parents_live (routes mall_world).
Proof.
  apply parents_live_check. apply (bool_decide_unpack _). vm_compute. exact I.
Qed.

Lemma children_are_registered_under_single_path_witness :
  let run := Route_register_routes 3 2 3 EmptyString EmptyString mall_world in
  (∃ own per_child,
     resources 3 (snd run) = [] ++ own ++ concat per_child
     ∧ length own = 1 + 1
     ∧ Forall2
         (λ child regs,
            resources 3
              (snd (Route_register_routes 2 child 3 "shops-"
                      "/shops/<int:shop_id>" mall_world))
            = [] ++ regs)
         [0; 1] per_child)
  ∧ resources 3 (snd run)
    = [ mkReg (plain "Shops") "/shops" "shops";
        mkReg (Wrapped (plain "Shop") by_id "shop") "/shops/<int:shop_id>"
              "shop";
        mkReg (Wrapped (plain "Items") by_id "shops-items")
              "/shops/<int:shop_id>/items" "shops-items";
        mkReg (Wrapped (plain "Item") by_id "shops-item")
              "/shops/<int:shop_id>/items/<int:item_id>" "shops-item";
        mkReg (Wrapped (plain "Clerks") by_id "shops-clerks")
              "/shops/<int:shop_id>/clerks" "shops-clerks" ].
Proof.
  intros run. split; [| reflexivity].
  apply (children_are_registered_under_single_path 2 2 3 EmptyString
           EmptyString mall_world
           (built "shop" "/shops" (Some (plain "Shops")) (Some (plain "Shop"))
              (Some [0; 1]) "int" (Some by_id)) []
           mall_world_wf mall_world_parents_live eq_refl);
    [lia | reflexivity].
Defined.

(** ** Class objects: the two runs go together *)







Section Refines.

Variable rs : gmap loc RouteObj.











End Refines.





(** X9.  On a store reached with the constructors, the recursion of
    [register_routes] from a root whose children exist is bounded by the
    number of references handed out: with that much depth the call is
    never cut short and never follows a child reference to nothing. *)
Theorem registration_recursion_is_bounded
    (fuel : nat) (root : RootRouteObj) (api : loc) (w : World) :
  constructed w →
  (∀ c, c ∈ root_children root → is_Some (routes w !! c)) →
  next_loc w ≤ fuel →
  let r := fst (RootRoute_register_routes fuel root api w) in
  r ≠ OutOfFuel ∧ ∀ l, r ≠ NoSuchObject l.
Proof.
  intros [[Halloc _] Hwf]%constructed_wf Hroot Hfuel r. subst r.
  destruct (for_each_finishes (routes w)
              (λ api child,
                 Route_register_routes fuel child api EmptyString EmptyString)
              (root_children root)) as (r & regs & H & F).
  { intros c Hc. apply Route_register_routes_finishes; [done | by apply Hroot |].
    specialize (Halloc c (Hroot c Hc)). lia. }
  specialize (H api (apis w) (next_loc w)). cbv beta in H.
  rewrite world_eta in H. unfold RootRoute_register_routes. rewrite H.
  simpl. destruct F as [-> | [msg ->]]; by split.
Qed.

Lemma registration_recursion_is_bounded_witness :
  let r := fst (RootRoute_register_routes 3 (RootRoute_new (Some [1])) 2
                  shop_world) in
  r ≠ OutOfFuel ∧ ∀ l, r ≠ NoSuchObject l.
Proof.
  apply (registration_recursion_is_bounded 3 (RootRoute_new (Some [1])) 2
           shop_world shop_world_constructed).
  - intros c ->%list_elem_of_singleton. by eexists.
  - vm_compute. lia.
Defined.
